(** * stdpipe: the pipeline orchestrators of [stdpipe/pipeline.py]

    A shallow embedding of [refine_astrometry], [filter_transient_candidates]
    and [calibrate_photometry].  Tables live in a heap of references, so that
    in-place column writes, copies and aliasing are visible; every call runs
    in a small monad that threads the heap, may raise a Python exception and
    records the calls made to the collaborating modules ([photometry],
    [astrometry], [catalogs], [esutil.htm]) together with what is printed.

    Numbers are exact rationals ([Qc]); rounding of floating point numbers is
    not modelled.  The only non-finite number the orchestrators can create by
    themselves is the [nan] that [np.median] returns on an empty array. *)

From Stdlib Require Import QArith Qcanon ZArith Lia.
From stdpp Require Import base numbers option list sorting gmap strings fin_maps.

Local Open Scope string_scope.
Local Open Scope list_scope.

(** ** Numbers, columns and tables *)

Inductive fnum :=
  | Fin (q : Qc)
  | NaN.

Definition fscale (a : fnum) (c : Qc) : fnum :=
  match a with Fin q => Fin (q * c)%Qc | NaN => NaN end.

Definition fhalf (a : fnum) : fnum :=
  match a with Fin q => Fin (q / 2)%Qc | NaN => NaN end.

Definition Qc_of_nat (n : nat) : Qc := Qc_of_Z (Z.of_nat n).

(** [1/3600] under [from __future__ import division]. *)
Definition arcsec : Qc := (1 / Qc_of_Z 3600)%Qc.

Definition column := list Qc.

(** An astropy table: [len(t)] rows and named columns of that length;
    assigning a column of another length is refused with [ValueError]. *)
Record table := Table { nrows : nat; cols : gmap string column }.

#[global] Instance table_eq_dec : EqDecision table.
Proof. solve_decision. Defined.

Definition loc := positive.

(** The exceptions the orchestrators can raise.  [DanglingRef] is not one of
    Python's: it stands for a reference the heap does not hold, which cannot
    happen when the caller's tables are in the heap. *)
Inductive exn :=
  | KeyError (k : string)
  | TypeError
  | ValueError
  | IndexError
  | AttributeError
  | DanglingRef.

Inductive Res (A : Type) :=
  | Ok (a : A)
  | Raise (e : exn).
Arguments Ok {A} a.
Arguments Raise {A} e.

(** [np.sum] of a boolean array, [np.any], [~], and [a &= b]. *)
Definition sum_mask (m : list bool) : nat := length (filter (λ b, b = true) m).
Definition any_mask (m : list bool) : bool := existsb id m.
Definition and_mask (a b : list bool) : Res (list bool) :=
  if decide (length a = length b) then Ok (zip_with andb a b) else Raise ValueError.

(** [arr[mask]] for a boolean mask: the entries at the positions marked. *)
Fixpoint select {A} (m : list bool) (l : list A) : list A :=
  match m, l with
  | b :: m', x :: l' => if b then x :: select m' l' else select m' l'
  | _, _ => []
  end.

Definition mask_arr {A} (m : list bool) (l : list A) : Res (list A) :=
  if decide (length m = length l) then Ok (select m l) else Raise IndexError.

(** [t[mask]]: a new table holding the marked rows. *)
Definition select_rows (t : table) (m : list bool) : table :=
  Table (sum_mask m) (select m <$> cols t).

Definition mask_rows (t : table) (m : list bool) : Res table :=
  if decide (length m = nrows t) then Ok (select_rows t m) else Raise IndexError.

(** [t[indices]]: a new table holding the rows at the given positions. *)
Definition take_rows (t : table) (ix : list nat) : Res table :=
  if forallb (λ i, i <? nrows t)%nat ix
  then Ok (Table (length ix) ((λ c : column, omap (λ i, c !! i) ix) <$> cols t))
  else Raise IndexError.

(** [mask[indices] = False]. *)
Definition clear_at (m : list bool) (ix : list nat) : Res (list bool) :=
  if forallb (λ i, i <? length m)%nat ix
  then Ok (foldr (λ i acc, <[i := false]> acc) m ix)
  else Raise IndexError.

(** [np.in1d(a, b)] and [np.arange(n)]. *)
Definition in1d (a b : column) : list bool := (λ x, bool_decide (x ∈ b)) <$> a.
Definition arange (n : nat) : column := Qc_of_nat <$> seq 0 n.

(** [column * c], elementwise. *)
Definition scale (p : Qc) (v : Qc) : Qc := (v * p)%Qc.

(** [np.median]: the middle of the sorted values, the mean of the two middle
    ones for an even count, [nan] for no values at all. *)
Definition median (l : column) : fnum :=
  let s := merge_sort Qcle l in
  let n := length s in
  if decide (n = 0)%nat then NaN
  else if Nat.even n
       then Fin ((nth (n / 2 - 1) s 0 + nth (n / 2) s 0) / 2)%Qc
       else Fin (nth (n / 2) s 0%Qc).

(** ** Match results and the arguments of the collaborators *)

(** The dictionary returned by [photometry.match]; it has keys, hence it is
    truthy whenever it is not [None]. *)
Record match_result := MatchResult {
  oidx : list nat;
  cidx : list nat;
  idx : list bool;
  dist : column;
  color_term : option Qc;
  zero_fn : column → column → column }.

(** Positional and keyword arguments of [photometry.match]; a keyword the
    call site does not pass is [None]. *)
Record match_args := MatchArgs {
  m_obj_ra : column; m_obj_dec : column; m_obj_mag : column;
  m_obj_magerr : column; m_obj_flags : column;
  m_cat_ra : column; m_cat_dec : column; m_cat_mag : column;
  m_cat_magerr : option column;
  m_sr : fnum;
  m_cat_color : option column;
  m_obj_xy : option (column * column);
  m_spatial_order : option Z;
  m_threshold : option Qc }.

(** Keyword arguments of [astrometry.refine_wcs]. *)
Record fit_args := FitArgs {
  fit_order : Z; fit_sr : option fnum; fit_match : bool; fit_method : string }.

(** Keyword arguments of [astrometry.refine_wcs_scamp], for solutions of
    type [W]. *)
Record scamp_args (W : Type) := ScampArgs {
  s_sr : fnum; s_wcs : option W; s_order : Z;
  s_cat_col_mag : string; s_cat_col_mag_err : option string;
  s_cat_col_ra : string; s_cat_col_dec : string;
  s_cat_col_ra_err : string; s_cat_col_dec_err : string;
  s_update : bool; s_verbose : bool }.
Arguments ScampArgs {W}.
Arguments s_update {W} _.

(** The [time] argument: a value given by the caller or the table's column. *)
Inductive timeval :=
  | TimeGiven (t : Qc)
  | TimeColumn (c : column).

(** What is printed, one constructor per format string of the source with
    the values that fill it.  The rms of [MsgIter] is a function of the
    distances listed. *)
Inductive msg :=
  | MsgRefineStart (sr3600 : fnum) (photometric : bool) (method : string)
  | MsgTooFew (n : nat)
  | MsgIter (i n : nat) (dists : column)
  | MsgFilterStart (n : nat) (sr3600 : fnum)
  | MsgUnflagged (n : nat)
  | MsgNotMatched (n : nat)
  | MsgRemainsAfter (n : nat) (name : string)
  | MsgSkybot (n : nat)
  | MsgNed (n : nat)
  | MsgRemaining (n : nat)
  | MsgCalibStart (nobj ncat : nat)
  | MsgCalibUsing (sr3600 : fnum) (mag : string) (order : Z)
  | MsgCalibColor (mag1 mag2 : string)
  | MsgCalibDone
  | MsgColorTerm (c : Qc)
  | MsgCalibFailed.

Inductive query :=
  | QVizier (catname : string)
  | QSkybot
  | QNed.

(** The modules the orchestrators call into, none of which is part of
    [pipeline.py]: they are parameters of the development. *)
Class Collaborators := {
  WCS : Type;
  (** [wcs.all_pix2world(x, y, 0)] *)
  all_pix2world : WCS → column → column → column * column;
  (** [photometry.match] *)
  photometry_match : match_args → option match_result;
  (** [astrometry.refine_wcs(obj, cat, ...)] *)
  refine_wcs : table → table → fit_args → option WCS;
  (** [astrometry.refine_wcs_scamp(obj, cat, ...)]: the solution and the
      contents of [obj] when it returns (it is handed [update]) *)
  refine_wcs_scamp : table → table → scamp_args WCS → option WCS * table;
  (** [esutil.htm.HTM(10).match(ra1, dec1, ra2, dec2, sr)], its first
      component: the indices of the matched objects *)
  htm_match : column → column → column → column → fnum → list nat;
  (** [catalogs.xmatch_objects(obj, catname, sr)] *)
  xmatch_objects : table → string → fnum → option table;
  (** [catalogs.xmatch_skybot(obj, time=time, col_id=col_id)] *)
  xmatch_skybot : table → timeval → string → option table;
  (** [catalogs.xmatch_ned(obj, sr, col_id=col_id)] *)
  xmatch_ned : table → fnum → string → option table;
  (** [catalogs.catalogs.get(catname)], its ['name'] entry *)
  catalogs_get : string → option string }.

Section Pipeline.
Context `{C : Collaborators}.

(** ** Observable events *)

Inductive event :=
  | EvPrint (m : msg)
  | EvPix2World (w : WCS)
  | EvPhotMatch (a : match_args) (r : option match_result)
  | EvRefineWcs (a : fit_args) (r : option WCS)
  | EvScamp (r : option WCS)
  | EvHtmMatch (sr : fnum) (sel : list bool)
  (** a catalogue service queried for the rows [obj[sel]] *)
  | EvQuery (q : query) (sr : option fnum) (sel : list bool)
  (** instrumentation only: the candidate mask when a stage is done *)
  | EvMask (sel : list bool).

(** ** The monad: heap, exceptions and an event log *)

Record outcome (A : Type) := Outcome {
  res : Res A;
  hp : gmap loc table;
  evs : list event }.
Arguments Outcome {A} res hp evs.
Arguments res {A} o.
Arguments hp {A} o.
Arguments evs {A} o.

Definition M (A : Type) : Type := gmap loc table → outcome A.

Definition ret {A} (a : A) : M A := λ h, Outcome (Ok a) h [].
Definition raise {A} (e : exn) : M A := λ h, Outcome (Raise e) h [].
Definition bind {A B} (c : M A) (f : A → M B) : M B := λ h,
  let o := c h in
  match res o with
  | Ok a => let o' := f a (hp o) in Outcome (res o') (hp o') (evs o ++ evs o')
  | Raise e => Outcome (Raise e) (hp o) (evs o)
  end.

#[global] Instance M_ret : MRet M := @ret.
#[global] Instance M_bind : MBind M := λ A B f c, bind c f.

Definition lift {A} (r : Res A) : M A :=
  match r with Ok a => ret a | Raise e => raise e end.
Definition emit (e : event) : M unit := λ h, Outcome (Ok tt) h [e].

Definition read (l : loc) : M table := λ h,
  match h !! l with
  | Some t => Outcome (Ok t) h []
  | None => Outcome (Raise DanglingRef) h []
  end.
Definition write (l : loc) (t : table) : M unit := λ h, Outcome (Ok tt) (<[l := t]> h) [].
Definition alloc (t : table) : M loc := λ h,
  let l := fresh (dom h) in Outcome (Ok l) (<[l := t]> h) [].

(** [t[k]], [k in t.keys()], [len(t)], [t[k] = c] and [t.copy()]. *)
Definition get_col (l : loc) (k : string) : M column :=
  t ← read l;
  match cols t !! k with Some c => mret c | None => raise (KeyError k) end.
Definition has_col (l : loc) (k : string) : M bool :=
  t ← read l; mret (bool_decide (is_Some (cols t !! k))).
Definition len (l : loc) : M nat := t ← read l; mret (nrows t).
Definition set_col (l : loc) (k : string) (c : column) : M unit :=
  t ← read l;
  if decide (length c = nrows t)
  then write l (Table (nrows t) (<[k := c]> (cols t)))
  else raise ValueError.
Definition copy (l : loc) : M loc := t ← read l; alloc t.

(** [log = print if verbose else lambda *args, **kwargs: None]; the
    message is built by the caller before [log] is entered. *)
Definition log (verbose : bool) (m : msg) : M unit :=
  if verbose then emit (EvPrint m) else mret tt.

(** ** [refine_astrometry] *)

Record refine_args := RefineArgs {
  r_sr : fnum; r_wcs : option WCS; r_order : Z;
  r_cat_col_mag : string; r_cat_col_mag_err : option string;
  r_cat_col_ra : string; r_cat_col_dec : string;
  r_cat_col_ra_err : string; r_cat_col_dec_err : string;
  r_n_iter : Z; r_use_photometry : bool; r_min_matches : Z;
  r_method : string; r_update : bool; r_verbose : bool }.

(** The defaults of the signature. *)
Definition refine_defaults : refine_args :=
  RefineArgs (Fin (Qc_of_Z 10 / Qc_of_Z 3600)%Qc) None 0 "V" None
             "RAJ2000" "DEJ2000" "e_RAJ2000" "e_DEJ2000"
             3 true 5 "astropy" true false.

(** [obj['ra'],obj['dec'] = wcs.all_pix2world(obj['x'], obj['y'], 0)] *)
Definition reproject (obj : loc) (w : WCS) : M unit :=
  x ← get_col obj "x";
  y ← get_col obj "y";
  emit (EvPix2World w);;
  set_col obj "ra" (all_pix2world w x y).1;;
  set_col obj "dec" (all_pix2world w x y).2.

Definition scamp_args_of (a : refine_args) : scamp_args WCS :=
  ScampArgs (r_sr a) (r_wcs a) (r_order a) (r_cat_col_mag a) (r_cat_col_mag_err a)
            (r_cat_col_ra a) (r_cat_col_dec a) (r_cat_col_ra_err a) (r_cat_col_dec_err a)
            (r_update a) (r_verbose a).

(** The [method == 'scamp'] branch. *)
Definition refine_scamp (a : refine_args) (obj cat : loc) : M (option WCS) :=
  tobj ← read obj;
  tcat ← read cat;
  let r := refine_wcs_scamp tobj tcat (scamp_args_of a) in
  emit (EvScamp r.1);;
  write obj r.2;;
  mret r.1.

(** How one pass through the loop body ends: it falls through to the next
    iteration with the fitted solution, or leaves the function by the
    [return None] of the too-few-matches branch. *)
Inductive loop_exit :=
  | Completed (w : option WCS)
  | TooFew.

(** The arguments of [photometry.match] at line 49, read in source order. *)
Definition refine_match_args (a : refine_args) (obj cat : loc) : M match_args :=
  cat_magerr ← match r_cat_col_mag_err a with
               | Some k => c ← get_col cat k; mret (Some c)
               | None => mret None
               end;
  ra ← get_col obj "ra";
  dec ← get_col obj "dec";
  mag ← get_col obj "mag";
  magerr ← get_col obj "magerr";
  flags ← get_col obj "flags";
  cra ← get_col cat (r_cat_col_ra a);
  cdec ← get_col cat (r_cat_col_dec a);
  cmag ← get_col cat (r_cat_col_mag a);
  mret (MatchArgs ra dec mag magerr flags cra cdec cmag cat_magerr (r_sr a)
                  None None None None).

(** [t[m['oidx']][m['idx']]] *)
Definition matched_rows (l : loc) (ix : list nat) (good : list bool) : M table :=
  t ← read l;
  t1 ← lift (take_rows t ix);
  lift (mask_rows t1 good).

(** The body of [for iter in range(n_iter)], lines 46 to 63. *)
Definition refine_iter (a : refine_args) (obj cat : loc) (iter : nat) : M loop_exit :=
  fit ← (if r_use_photometry a then
      margs ← refine_match_args a obj cat;
      let m := photometry_match margs in
      emit (EvPhotMatch margs m);;
      match m with
      | None =>
          (* [not m] holds; the message handed to [log] subscripts [m] *)
          raise TypeError
      | Some mr =>
          if (Z.of_nat (sum_mask (idx mr)) <? r_min_matches a)%Z then
            log (r_verbose a) (MsgTooFew (sum_mask (idx mr)));;
            mret None
          else
            d ← lift (mask_arr (idx mr) (dist mr));
            log (r_verbose a) (MsgIter iter (sum_mask (idx mr)) d);;
            o ← matched_rows obj (oidx mr) (idx mr);
            c ← matched_rows cat (cidx mr) (idx mr);
            let fa := FitArgs (r_order a) None false (r_method a) in
            emit (EvRefineWcs fa (refine_wcs o c fa));;
            mret (Some (refine_wcs o c fa))
      end
    else
      tobj ← read obj;
      tcat ← read cat;
      let fa := FitArgs (r_order a) (Some (r_sr a)) true (r_method a) in
      emit (EvRefineWcs fa (refine_wcs tobj tcat fa));;
      mret (Some (refine_wcs tobj tcat fa)));
  match fit with
  | None => mret TooFew
  | Some w =>
      (if r_update a then
         match w with
         | Some w' => reproject obj w'
         | None => raise AttributeError
         end
       else mret tt);;
      mret (Completed w)
  end.

(** [for iter in range(n_iter)]: [n] passes left, the next one numbered
    [iter]; [w] is the value of the variable [wcs]. *)
Fixpoint refine_loop (a : refine_args) (obj cat : loc) (n iter : nat)
    (w : option WCS) : M loop_exit :=
  match n with
  | O => mret (Completed w)
  | S n' =>
      r ← refine_iter a obj cat iter;
      match r with
      | Completed w' => refine_loop a obj cat n' (S iter) w'
      | TooFew => mret TooFew
      end
  end.

(** Lines 29 to 35: the opening message and the projection of the objects
    through the initial solution. *)
Definition refine_prologue (a : refine_args) (obj : loc) : M unit :=
  log (r_verbose a)
      (MsgRefineStart (fscale (r_sr a) (Qc_of_Z 3600)) (r_use_photometry a) (r_method a));;
  match r_wcs a with
  | Some w => reproject obj w
  | None => mret tt
  end.

(** What follows the prologue, lines 37 to 66. *)
Definition refine_body (a : refine_args) (obj cat : loc) : M loop_exit :=
  if decide (r_method a = "scamp") then
    w ← refine_scamp a obj cat; mret (Completed w)
  else
    refine_loop a obj cat (Z.to_nat (r_n_iter a)) 0 (r_wcs a).

(** The function up to its exits, which are told apart. *)
Definition refine_run (a : refine_args) (obj cat : loc) : M loop_exit :=
  refine_prologue a obj;; refine_body a obj cat.

(** What the caller receives: both [return None] and [return wcs]. *)
Definition exit_value (x : loop_exit) : option WCS :=
  match x with Completed w => w | TooFew => None end.

Definition refine_astrometry (a : refine_args) (obj cat : loc) : M (option WCS) :=
  x ← refine_run a obj cat; mret (exit_value x).

(** ** The default matching radius, lines 78 to 84 and 155 to 161 *)

Definition default_radius (sr : option fnum) (pixscale : option Qc) (obj : loc) : M fnum :=
  match sr with
  | Some r => mret r
  | None =>
      match pixscale with
      | Some p =>
          fwhm ← get_col obj "fwhm";
          mret (fhalf (median (scale p <$> fwhm)))
      | None => mret (Fin arcsec)
      end
  end.

(** ** [filter_transient_candidates] *)

Record filter_args := FilterArgs {
  f_sr : option fnum; f_pixscale : option Qc; f_time : option timeval;
  f_cat : option loc; f_cat_col_ra : string; f_cat_col_dec : string;
  f_vizier : list string; f_skybot : bool; f_ned : bool; f_flagged : bool;
  f_col_id : option string; f_get_candidates : bool; f_verbose : bool }.

Definition filter_defaults : filter_args :=
  FilterArgs None None None None "RAJ2000" "DEJ2000" ["ps1"; "usnob1"; "gsc"]
             true false true None true false.

(** [obj[cand_idx]] *)
Definition subset (obj : loc) (m : list bool) : M table :=
  t ← read obj; lift (mask_rows t m).

(** [if xcat is not None and len(xcat):
         cand_idx &= ~np.in1d(obj[col_id], xcat[col_id])] *)
Definition drop_matched (obj : loc) (col_id : string) (xcat : option table)
    (m : list bool) : M (list bool) :=
  match xcat with
  | Some x =>
      if decide (nrows x = 0)%nat then mret m
      else
        ids ← get_col obj col_id;
        xids ← match cols x !! col_id with
               | Some c => mret c
               | None => raise (KeyError col_id)
               end;
        lift (and_mask m (negb <$> in1d ids xids))
  | None => mret m
  end.

(** Lines 101 to 104; the count is handed to [print], not to [log]. *)
Definition stage_flagged (a : filter_args) (obj : loc) (m : list bool) : M (list bool) :=
  if f_flagged a then
    flags ← get_col obj "flags";
    m' ← lift (and_mask m ((λ v, bool_decide (v = 0%Qc)) <$> flags));
    emit (EvMask m');;
    emit (EvPrint (MsgUnflagged (sum_mask m')));;
    mret m'
  else mret m.

(** Lines 106 to 109. *)
Definition stage_local (a : filter_args) (obj : loc) (sr : fnum) (m : list bool)
    : M (list bool) :=
  match f_cat a with
  | Some cat =>
      if any_mask m then
        ra ← get_col obj "ra";
        dec ← get_col obj "dec";
        cra ← get_col cat (f_cat_col_ra a);
        cdec ← get_col cat (f_cat_col_dec a);
        emit (EvHtmMatch sr m);;
        m' ← lift (clear_at m (htm_match ra dec cra cdec sr));
        emit (EvMask m');;
        log (f_verbose a) (MsgNotMatched (sum_mask m'));;
        mret m'
      else mret m
  | None => mret m
  end.

(** Lines 111 to 119: [for catname in vizier], left by [break] as soon as
    no candidate is marked. *)
Fixpoint stage_vizier (a : filter_args) (obj : loc) (sr : fnum) (col_id : string)
    (names : list string) (m : list bool) : M (list bool) :=
  match names with
  | [] => mret m
  | catname :: rest =>
      if any_mask m then
        sub ← subset obj m;
        emit (EvQuery (QVizier catname) (Some sr) m);;
        m' ← drop_matched obj col_id (xmatch_objects sub catname sr) m;
        emit (EvMask m');;
        name ← match catalogs_get catname with
               | Some n => mret n
               | None => raise TypeError
               end;
        log (f_verbose a) (MsgRemainsAfter (sum_mask m') name);;
        stage_vizier a obj sr col_id rest m'
      else mret m
  end.

(** Lines 121 to 129. *)
Definition stage_skybot (a : filter_args) (obj : loc) (col_id : string) (m : list bool)
    : M (list bool) :=
  if f_skybot a && any_mask m then
    time ← match f_time a with
           | Some t => mret (Some t)
           | None =>
               present ← has_col obj "time";
               if (present : bool) then c ← get_col obj "time"; mret (Some (TimeColumn c))
               else mret None
           end;
    match time with
    | Some t =>
        sub ← subset obj m;
        emit (EvQuery QSkybot None m);;
        m' ← drop_matched obj col_id (xmatch_skybot sub t col_id) m;
        emit (EvMask m');;
        log (f_verbose a) (MsgSkybot (sum_mask m'));;
        mret m'
    | None => mret m
    end
  else mret m.

(** Lines 131 to 135. *)
Definition stage_ned (a : filter_args) (obj : loc) (sr : fnum) (col_id : string)
    (m : list bool) : M (list bool) :=
  if f_ned a && any_mask m then
    sub ← subset obj m;
    emit (EvQuery QNed (Some sr) m);;
    m' ← drop_matched obj col_id (xmatch_ned sub sr col_id) m;
    emit (EvMask m');;
    log (f_verbose a) (MsgNed (sum_mask m'));;
    mret m'
  else mret m.

(** Lines 86 to 94: the table the stages work on, a copy carrying the
    synthetic identifier when the caller's table has no such column. *)
Definition with_id (obj : loc) (col_id : string) : M loc :=
  present ← has_col obj col_id;
  if (present : bool) then mret obj
  else
    o ← copy obj;
    n ← len o;
    set_col o col_id (arange n);;
    mret o.

(** Lines 99 to 135: the mask after all stages. *)
Definition filter_stages (a : filter_args) (work : loc) (sr : fnum) (col_id : string)
    : M (list bool) :=
  n ← len work;
  log (f_verbose a) (MsgFilterStart n (fscale sr (Qc_of_Z 3600)));;
  emit (EvMask (replicate n true));;
  m1 ← stage_flagged a work (replicate n true);
  m2 ← stage_local a work sr m1;
  m3 ← stage_vizier a work sr col_id (f_vizier a) m2;
  m4 ← stage_skybot a work col_id m3;
  stage_ned a work sr col_id m4.

Inductive filter_result :=
  | Candidates (l : loc)
  | CandMask (m : list bool).

(** Lines 78 to 137: everything before the choice of what to return. *)
Definition filter_mask (a : filter_args) (obj : loc) : M (list bool) :=
  sr ← default_radius (f_sr a) (f_pixscale a) obj;
  let col_id := default "stdpipe_id" (f_col_id a) in
  work ← with_id obj col_id;
  m ← filter_stages a work sr col_id;
  left ← subset work m;
  log (f_verbose a) (MsgRemaining (nrows left));;
  mret m.

(** [obj_in[cand_idx].copy()] is a new table built from the caller's. *)
Definition filter_transient_candidates (a : filter_args) (obj : loc) : M filter_result :=
  m ← filter_mask a obj;
  if f_get_candidates a then
    rows ← subset obj m;
    l ← alloc rows;
    mret (Candidates l)
  else mret (CandMask m).

(** ** [calibrate_photometry] *)

Record calib_args := CalibArgs {
  c_sr : option fnum; c_pixscale : option Qc; c_order : Z; c_threshold : Qc;
  c_cat_col_mag : string;
  c_cat_col_mag1 : option string; c_cat_col_mag2 : option string;
  c_cat_col_ra : string; c_cat_col_dec : string;
  c_update : bool; c_verbose : bool }.

Definition calib_defaults : calib_args :=
  CalibArgs None None 0 (Qc_of_Z 5) "R" None None "RAJ2000" "DEJ2000" true false.

(** [t[k]] where [k] may be [None], an index no table accepts. *)
Definition get_col_opt (l : loc) (k : option string) : M column :=
  match k with
  | Some k' => get_col l k'
  | None => raise ValueError
  end.

(** Elementwise arithmetic on two columns. *)
Definition col_op (f : Qc → Qc → Qc) (a b : column) : Res column :=
  if decide (length a = length b) then Ok (zip_with f a b) else Raise ValueError.

(** Truth value of an optional string: neither [None] nor empty. *)
Definition truthy (k : option string) : bool :=
  match k with Some s => negb (bool_decide (s = "")) | None => false end.

(** The arguments of [photometry.match] at lines 168 to 172, read in
    source order: the colour is computed whatever the column names are. *)
Definition calib_match_args (a : calib_args) (obj cat : loc) (sr : fnum) : M match_args :=
  ra ← get_col obj "ra";
  dec ← get_col obj "dec";
  mag ← get_col obj "mag";
  magerr ← get_col obj "magerr";
  flags ← get_col obj "flags";
  cra ← get_col cat (c_cat_col_ra a);
  cdec ← get_col cat (c_cat_col_dec a);
  cmag ← get_col cat (c_cat_col_mag a);
  c1 ← get_col_opt cat (c_cat_col_mag1 a);
  c2 ← get_col_opt cat (c_cat_col_mag2 a);
  color ← lift (col_op Qcminus c1 c2);
  x ← get_col obj "x";
  y ← get_col obj "y";
  mret (MatchArgs ra dec mag magerr flags cra cdec cmag None sr
                  (Some color) (Some (x, y)) (Some (c_order a)) (Some (c_threshold a))).

Definition calibrate_photometry (a : calib_args) (obj cat : loc) : M (option match_result) :=
  sr ← default_radius (c_sr a) (c_pixscale a) obj;
  nobj ← len obj;
  ncat ← len cat;
  log (c_verbose a) (MsgCalibStart nobj ncat);;
  log (c_verbose a) (MsgCalibUsing (fscale sr (Qc_of_Z 3600)) (c_cat_col_mag a) (c_order a));;
  (if truthy (c_cat_col_mag1 a) && truthy (c_cat_col_mag2 a) then
     log (c_verbose a) (MsgCalibColor (default "" (c_cat_col_mag1 a))
                                      (default "" (c_cat_col_mag2 a)))
   else mret tt);;
  margs ← calib_match_args a obj cat sr;
  let m := photometry_match margs in
  emit (EvPhotMatch margs m);;
  match m with
  | Some mr =>
      log (c_verbose a) MsgCalibDone;;
      match color_term mr with
      | Some c => if decide (c = 0%Qc) then mret tt else log (c_verbose a) (MsgColorTerm c)
      | None => mret tt
      end;;
      (if c_update a then
         mag ← get_col obj "mag";
         x ← get_col obj "x";
         y ← get_col obj "y";
         calib ← lift (col_op Qcplus mag (zero_fn mr x y));
         set_col obj "mag_calib" calib
       else mret tt);;
      mret m
  | None =>
      log (c_verbose a) MsgCalibFailed;;
      mret None
  end.

End Pipeline.

Arguments Outcome {C A} res hp evs.
Arguments res {C A} o.
Arguments hp {C A} o.
Arguments evs {C A} o.

(** ** What a run lets an observer see *)

Section Observations.
Context `{C : Collaborators}.

(** The selection of candidates an event carries. *)
Definition event_mask (e : event) : option (list bool) :=
  match e with
  | EvHtmMatch _ m | EvQuery _ _ m | EvMask m => Some m
  | _ => None
  end.
Definition masks (es : list event) : list (list bool) := omap event_mask es.

(** Calls that look candidates up in a catalogue. *)
Definition is_lookup (e : event) : bool :=
  match e with
  | EvHtmMatch _ _ | EvQuery _ _ _ => true
  | _ => false
  end.

(** Calls to a catalogue service: Vizier, SkyBoT or NED. *)
Definition is_query (e : event) : bool :=
  match e with
  | EvQuery _ _ _ => true
  | _ => false
  end.


(** The solutions fitted, the photometric matches made and the messages
    printed, in order. *)
Definition fits (es : list event) : list (option WCS) :=
  omap (λ e, match e with EvRefineWcs _ r => Some r | _ => None end) es.
Definition matches (es : list event) : list match_args :=
  omap (λ e, match e with EvPhotMatch a _ => Some a | _ => None end) es.
Definition printed (es : list event) : list msg :=
  omap (λ e, match e with EvPrint m => Some m | _ => None end) es.
Definition scamp_calls (es : list event) : list (option WCS) :=
  omap (λ e, match e with EvScamp r => Some r | _ => None end) es.

(** [wp c h Q]: the run of [c] from the heap [h] ends in a result, a heap
    and a list of events that [Q] accepts. *)
Definition wp {A} (c : M A) (h : gmap loc table)
    (Q : Res A → gmap loc table → list event → Prop) : Prop :=
  Q (res (c h)) (hp (c h)) (evs (c h)).

End Observations.

(** [a] marks no candidate that [b] does not mark. *)
Definition sub_mask (a b : list bool) : Prop := Forall2 Bool.le a b.

(** Every mask of the list is within the one before it, the first within
    [hi]. *)
Fixpoint descending (hi : list bool) (ms : list (list bool)) : Prop :=
  match ms with
  | [] => True
  | m :: ms' => sub_mask m hi ∧ descending m ms'
  end.

(** ** The vocabulary of the properties *)

Section Vocabulary.
Context `{C : Collaborators}.

(** A lookup is made for at least one candidate. *)
Definition guarded (e : event) : bool :=
  match e with
  | EvHtmMatch _ m | EvQuery _ _ m => any_mask m
  | _ => true
  end.

Definition nonincreasing (ms : list (list bool)) : Prop :=
  match ms with [] => True | m :: ms' => descending m ms' end.

(** What a stage entered with the mask [hi] guarantees. *)
Definition narrow_post (hi : list bool) (r : Res (list bool)) (es : list event) : Prop :=
  descending hi (masks es) ∧ Forall (λ e, guarded e = true) es ∧
  ∀ m, r = Ok m → m = default hi (last (masks es)).

Definition narrows (hi : list bool) (c : M (list bool)) : Prop :=
  ∀ h, wp c h (λ r _ es, narrow_post hi r es).

(** The trace of a whole run: masks shrink, lookups have candidates. *)
Definition narrow_trace (r : Res (list bool)) (es : list event) : Prop :=
  nonincreasing (masks es) ∧ Forall (λ e, guarded e = true) es ∧
  ∀ m, r = Ok m → last (masks es) = Some m.

(** An event that neither looks anything up nor reports a mask. *)
Definition quiet (e : event) : bool :=
  match e with
  | EvHtmMatch _ _ | EvQuery _ _ _ | EvMask _ => false
  | _ => true
  end.

(** A computation that leaves the heap as it found it. *)
Definition reads_only {A} (c : M A) : Prop := ∀ h, wp c h (λ _ h' _, h' = h).

(** The delegated solver hands the table back as it received it whenever it
    is told not to update. *)
Definition scamp_respects_update : Prop :=
  ∀ tobj tcat sa, s_update sa = false → (refine_wcs_scamp tobj tcat sa).2 = tobj.

(** The colour handed to the matcher is the difference of two columns of
    the catalogue, both of which have to be named. *)
Definition color_of (a : calib_args) (cat : loc) (h : gmap loc table) (ma : match_args) : Prop :=
  ∃ k1 k2 tcat c1 c2,
    c_cat_col_mag1 a = Some k1 ∧ c_cat_col_mag2 a = Some k2 ∧
    h !! cat = Some tcat ∧ cols tcat !! k1 = Some c1 ∧ cols tcat !! k2 = Some c2 ∧
    m_cat_color ma = Some (zip_with Qcminus c1 c2).

(** The radius used when the caller leaves [sr] unset, operation by
    operation as lines 78 to 84 and 155 to 161 compute it: every width times
    the pixel scale, the median of the products, and its half. *)
Definition unset_radius (pixscale : option Qc) (obj : loc) (h : gmap loc table)
    (rad : fnum) : Prop :=
  match pixscale with
  | Some p =>
      ∃ t fwhm, h !! obj = Some t ∧ cols t !! "fwhm" = Some fwhm ∧
                rad = fhalf (median (scale p <$> fwhm))
  | None => rad = Fin arcsec
  end.



End Vocabulary.

(** ** A concrete set of collaborators

    Solutions are shifts of the pixel grid; the matcher is a parameter. *)

Definition shift_wcs : Type := Qc * Qc.

Definition toy (pm : match_args → option match_result) (hits : list nat) : Collaborators := {|
  WCS := shift_wcs;
  all_pix2world := λ w x y, ((λ v, v + w.1)%Qc <$> x, (λ v, v + w.2)%Qc <$> y);
  photometry_match := pm;
  refine_wcs := λ o _ _, Some (Qc_of_nat (nrows o), 0%Qc);
  refine_wcs_scamp := λ o _ _, (Some (1%Qc, 1%Qc), o);
  htm_match := λ _ _ _ _ _, hits;
  xmatch_objects := λ _ _ _, None;
  xmatch_skybot := λ _ _ _, None;
  xmatch_ned := λ _ _ _, None;
  catalogs_get := λ n, Some n |}.

Definition qz (z : Z) : Qc := Qc_of_Z z.

(** Two detections, the second one flagged, and a one-star catalogue. *)
Definition obj2 : table :=
  Table 2 (list_to_map
    [("x", [qz 1; qz 2]); ("y", [qz 3; qz 4]);
     ("ra", [qz 10; qz 20]); ("dec", [qz 30; qz 40]);
     ("mag", [qz 5; qz 6]); ("magerr", [qz 0; qz 0]);
     ("flags", [qz 0; qz 1]); ("fwhm", [qz 2; qz 4])]).
Definition cat1 : table :=
  Table 1 (list_to_map
    [("RAJ2000", [qz 10]); ("DEJ2000", [qz 30]); ("V", [qz 5]); ("R", [qz 5])]).
Definition heap0 : gmap loc table := <[1%positive := obj2]> (<[2%positive := cat1]> ∅).

(** A match of both detections with the single star, both pairs good. *)
Definition good_match : match_result :=
  MatchResult [0; 1]%nat [0; 0]%nat [true; true] [qz 0; qz 0] None (λ x _, x).

(** A matcher with nothing to return, and one that always finds
    [good_match]. *)
Definition null_matcher : match_args → option match_result := λ _, None.
Definition good_matcher : match_args → option match_result := λ _, Some good_match.

Definition silent : Collaborators := toy null_matcher [].
Definition matching : Collaborators := toy good_matcher [0%nat].

(** Positional matching, one pass, an initial solution and no [update]. *)
Definition refine_with_guess : @refine_args silent :=
  @RefineArgs silent (Fin arcsec) (Some (qz 1, qz 1)) 0 "V" None
              "RAJ2000" "DEJ2000" "e_RAJ2000" "e_DEJ2000"
              1 false 5 "astropy" false false.

(** Photometric matching, two passes, two matches required. *)
Definition refine_two_passes : @refine_args matching :=
  @RefineArgs matching (Fin arcsec) None 0 "V" None
              "RAJ2000" "DEJ2000" "e_RAJ2000" "e_DEJ2000"
              2 true 2 "astropy" true false.

(** Photometric matching, one pass, an initial solution and no [update]. *)
Definition refine_once : @refine_args matching :=
  @RefineArgs matching (Fin arcsec) (Some (qz 1, qz 1)) 0 "V" None
              "RAJ2000" "DEJ2000" "e_RAJ2000" "e_DEJ2000"
              1 true 2 "astropy" false false.

(** The defaults, with the fit delegated to SCAMP. *)
Definition refine_by_scamp : @refine_args silent :=
  @RefineArgs silent (Fin arcsec) None 0 "V" None
              "RAJ2000" "DEJ2000" "e_RAJ2000" "e_DEJ2000"
              3 true 5 "scamp" true false.

(** The defaults with a local catalogue, the mask being asked for. *)
Definition filter_with_catalogue : filter_args :=
  FilterArgs None None None (Some 2%positive) "RAJ2000" "DEJ2000" ["ps1"; "usnob1"; "gsc"]
             true false true None false false.

(** ** Further vocabulary: frames, projections, silent runs, queries *)

Section MoreVocabulary.
Context `{C : Collaborators}.

(** [t'] is [t] up to its [ra] and [dec] columns. *)
Definition same_but_sky (t t' : table) : Prop :=
  nrows t' = nrows t ∧ ∀ k, k ≠ "ra" → k ≠ "dec" → cols t' !! k = cols t !! k.

(** From [h] to [h'] nothing but the sky positions of [obj] has changed. *)
Definition only_sky_written (obj : loc) (h h' : gmap loc table) : Prop :=
  (∀ l, l ≠ obj → h' !! l = h !! l) ∧
  match h !! obj with
  | Some t => ∃ t', h' !! obj = Some t' ∧ same_but_sky t t'
  | None => h' !! obj = None
  end.

(** A computation whose final heap is related to the initial one by [R]. *)
Definition keeps (R : gmap loc table → gmap loc table → Prop) {A} (c : M A) : Prop :=
  ∀ h, wp c h (λ _ h' _, R h h').

(** The sky positions of [obj] are the pixel positions seen through [w]. *)
Definition projected (obj : loc) (w : WCS) (h : gmap loc table) : Prop :=
  ∃ t x y, h !! obj = Some t ∧
           cols t !! "x" = Some x ∧ cols t !! "y" = Some y ∧
           cols t !! "ra" = Some (all_pix2world w x y).1 ∧
           cols t !! "dec" = Some (all_pix2world w x y).2.

(** The events that are not printing: calls and mask snapshots. *)
Definition is_print (e : event) : bool :=
  match e with EvPrint _ => true | _ => false end.
Definition calls (es : list event) : list event :=
  filter (λ e, is_print e = false) es.

(** Two runs that differ at most in what they print. *)
Definition same_run {A} (o1 o2 : outcome A) : Prop :=
  res o1 = res o2 ∧ hp o1 = hp o2 ∧ calls (evs o1) = calls (evs o2).
Definition sim {A} (c1 c2 : M A) : Prop := ∀ h, same_run (c1 h) (c2 h).

(** The arguments with another value of [verbose]. *)
Definition refine_set_verbose (a : refine_args) (v : bool) : refine_args :=
  RefineArgs (r_sr a) (r_wcs a) (r_order a) (r_cat_col_mag a) (r_cat_col_mag_err a)
             (r_cat_col_ra a) (r_cat_col_dec a) (r_cat_col_ra_err a) (r_cat_col_dec_err a)
             (r_n_iter a) (r_use_photometry a) (r_min_matches a) (r_method a)
             (r_update a) v.
Definition filter_set_verbose (a : filter_args) (v : bool) : filter_args :=
  FilterArgs (f_sr a) (f_pixscale a) (f_time a) (f_cat a) (f_cat_col_ra a)
             (f_cat_col_dec a) (f_vizier a) (f_skybot a) (f_ned a) (f_flagged a)
             (f_col_id a) (f_get_candidates a) v.
Definition calib_set_verbose (a : calib_args) (v : bool) : calib_args :=
  CalibArgs (c_sr a) (c_pixscale a) (c_order a) (c_threshold a) (c_cat_col_mag a)
            (c_cat_col_mag1 a) (c_cat_col_mag2 a) (c_cat_col_ra a) (c_cat_col_dec a)
            (c_update a) v.

(** [obj['flags'] == 0] *)
Definition unflagged (flags : column) : list bool :=
  (λ v, bool_decide (v = 0%Qc)) <$> flags.

(** The catalogue services queried, in order. *)
Definition queries (es : list event) : list query :=
  omap (λ e, match e with EvQuery q _ _ => Some q | _ => None end) es.

(** The shape of the queries of a run. *)
Definition query_shape (a : filter_args) (qs : list query) : Prop :=
  ∃ names sky ned,
    qs = (QVizier <$> names) ++ sky ++ ned ∧
    names `prefix_of` f_vizier a ∧
    (sky = [] ∨ (sky = [QSkybot] ∧ f_skybot a = true)) ∧
    (ned = [] ∨ (ned = [QNed] ∧ f_ned a = true)).

(** A stage entered with no row at all looks nothing up. *)
Definition idle (r : Res (list bool)) (es : list event) : Prop :=
  Forall (λ e, is_lookup e = false) es ∧ ∀ m, r = Ok m → m = [].

(** The heap after [obj['mag_calib'] = obj['mag'] + m['zero_fn'](obj['x'],
    obj['y'])] for the match [mr], from the heap [h]. *)
Definition calibrated (obj : loc) (mr : match_result) (h h' : gmap loc table) : Prop :=
  ∃ t mag x y,
    h !! obj = Some t ∧ cols t !! "mag" = Some mag ∧
    cols t !! "x" = Some x ∧ cols t !! "y" = Some y ∧
    h' = <[obj := Table (nrows t)
                    (<["mag_calib" := zip_with Qcplus mag (zero_fn mr x y)]> (cols t))]> h.

(** The keywords of the call of [photometry.match] at lines 168 to 172. *)
Definition calib_keywords (a : calib_args) (obj : loc) (h : gmap loc table)
    (ma : match_args) : Prop :=
  m_spatial_order ma = Some (c_order a) ∧ m_threshold ma = Some (c_threshold a) ∧
  m_cat_magerr ma = None ∧
  (∀ sr, c_sr a = Some sr → m_sr ma = sr) ∧
  ∃ t x y, h !! obj = Some t ∧ cols t !! "x" = Some x ∧ cols t !! "y" = Some y ∧
           m_obj_xy ma = Some (x, y).

End MoreVocabulary.

(** ** Further concrete inputs *)

(** Collaborators whose fit finds no solution. *)
Definition failing_fit : Collaborators := {|
  WCS := shift_wcs;
  all_pix2world := λ w x y, ((λ v, v + w.1)%Qc <$> x, (λ v, v + w.2)%Qc <$> y);
  photometry_match := null_matcher;
  refine_wcs := λ _ _ _, None;
  refine_wcs_scamp := λ o _ _, (None, o);
  htm_match := λ _ _ _ _ _, [];
  xmatch_objects := λ _ _ _, None;
  xmatch_skybot := λ _ _ _, None;
  xmatch_ned := λ _ _ _, None;
  catalogs_get := λ n, Some n |}.

(** Collaborators whose list of catalogues is empty. *)
Definition unlisted : Collaborators := {|
  WCS := shift_wcs;
  all_pix2world := λ w x y, ((λ v, v + w.1)%Qc <$> x, (λ v, v + w.2)%Qc <$> y);
  photometry_match := null_matcher;
  refine_wcs := λ o _ _, Some (Qc_of_nat (nrows o), 0%Qc);
  refine_wcs_scamp := λ o _ _, (Some (1%Qc, 1%Qc), o);
  htm_match := λ _ _ _ _ _, [];
  xmatch_objects := λ _ _ _, None;
  xmatch_skybot := λ _ _ _, None;
  xmatch_ned := λ _ _ _, None;
  catalogs_get := λ _, None |}.

(** Positional matching, one pass, [update] set. *)
Definition refine_positional : @refine_args failing_fit :=
  @RefineArgs failing_fit (Fin arcsec) None 0 "V" None
              "RAJ2000" "DEJ2000" "e_RAJ2000" "e_DEJ2000"
              1 false 5 "astropy" true false.

(** Positional matching, three passes, [update] set. *)
Definition refine_three_positional : @refine_args failing_fit :=
  @RefineArgs failing_fit (Fin arcsec) None 0 "V" None
              "RAJ2000" "DEJ2000" "e_RAJ2000" "e_DEJ2000"
              3 false 5 "astropy" true false.

(** One Vizier catalogue and nothing else. *)
Definition filter_one_catalogue : filter_args :=
  FilterArgs None None None None "RAJ2000" "DEJ2000" ["ps1"]
             false false false None false false.

(** A table of detections without rows, and the two detections in the
    other order. *)
Definition obj0 : table :=
  Table 0 (list_to_map
    [("x", []); ("y", []); ("ra", []); ("dec", []);
     ("mag", []); ("magerr", []); ("flags", []); ("fwhm", [])]).
Definition heap_empty : gmap loc table := <[1%positive := obj0]> ∅.
Definition obj2_swapped : table :=
  Table 2 (list_to_map
    [("x", [qz 2; qz 1]); ("y", [qz 4; qz 3]);
     ("ra", [qz 20; qz 10]); ("dec", [qz 40; qz 30]);
     ("mag", [qz 6; qz 5]); ("magerr", [qz 0; qz 0]);
     ("flags", [qz 1; qz 0]); ("fwhm", [qz 4; qz 2])]).
Definition heap0_swapped : gmap loc table :=
  <[1%positive := obj2_swapped]> (<[2%positive := cat1]> ∅).

(** A calibration against [R] with the colour [V - R]. *)
Definition calib_with_colour : calib_args :=
  CalibArgs None None 0 (Qc_of_Z 5) "R" (Some "V") (Some "R") "RAJ2000" "DEJ2000"
            true false.

(** * Properties *)

(** ** Rules for runs *)

Section Rules.
Context `{C : Collaborators}.
Implicit Types (h : gmap loc table) (es : list event) (l : loc).

Local Abbreviation post A := (Res A → gmap loc table → list event → Prop).

Lemma wp_ret {A} (a : A) h (Q : post A) : Q (Ok a) h [] → wp (mret a) h Q.
Proof. done. Qed.

Lemma wp_raise {A} e h (Q : post A) :
  Q (Raise e) h [] → wp (raise e) h Q.
Proof. done. Qed.

Lemma wp_emit e h (Q : post unit) : Q (Ok tt) h [e] → wp (emit e) h Q.
Proof. done. Qed.

Lemma wp_lift {A} (r : Res A) h (Q : post A) : Q r h [] → wp (lift r) h Q.
Proof. by destruct r. Qed.

Lemma wp_log (v : bool) m h (Q : post unit) :
  Q (Ok tt) h (if v then [EvPrint m] else []) → wp (log v m) h Q.
Proof. by destruct v. Qed.

Lemma wp_bind {A B} (c : M A) (f : A → M B) h (Q : post B) :
  wp c h (λ r h1 es1,
    match r with
    | Ok a => wp (f a) h1 (λ r2 h2 es2, Q r2 h2 (es1 ++ es2))
    | Raise e => Q (Raise e) h1 es1
    end) →
  wp (c ≫= f) h Q.
Proof. unfold wp, mbind, M_bind, bind. by destruct (res (c h)). Qed.

Lemma wp_mono {A} (c : M A) h (Q Q' : post A) :
  wp c h Q → (∀ r h' es, Q r h' es → Q' r h' es) → wp c h Q'.
Proof. unfold wp. auto. Qed.

Lemma wp_read l h (Q : post table) :
  (∀ t, h !! l = Some t → Q (Ok t) h []) →
  (h !! l = None → Q (Raise DanglingRef) h []) →
  wp (read l) h Q.
Proof. intros Hs Hn. unfold wp, read. destruct (h !! l) eqn:E; simpl; auto. Qed.

Lemma wp_write l t h (Q : post unit) : Q (Ok tt) (<[l := t]> h) [] → wp (write l t) h Q.
Proof. done. Qed.

Lemma wp_alloc t h (Q : post loc) : Q (Ok (fresh (dom h))) (<[fresh (dom h) := t]> h) [] → wp (alloc t) h Q.
Proof. done. Qed.

Lemma wp_get_col l k h (Q : post column) :
  (∀ t c, h !! l = Some t → cols t !! k = Some c → Q (Ok c) h []) →
  (∀ e, Q (Raise e) h []) →
  wp (get_col l k) h Q.
Proof.
  intros Hok Herr. unfold get_col. apply wp_bind, wp_read; [|by auto].
  intros t Ht. destruct (cols t !! k) eqn:Hk; [apply wp_ret | apply wp_raise]; eauto.
Qed.

Lemma wp_has_col l k h (Q : post bool) :
  (∀ t, h !! l = Some t → Q (Ok (bool_decide (is_Some (cols t !! k)))) h []) →
  (∀ e, Q (Raise e) h []) →
  wp (has_col l k) h Q.
Proof.
  intros Hok Herr. unfold has_col. apply wp_bind, wp_read; [|by auto].
  intros t Ht. apply wp_ret. eauto.
Qed.

Lemma wp_len l h (Q : post nat) :
  (∀ t, h !! l = Some t → Q (Ok (nrows t)) h []) →
  (∀ e, Q (Raise e) h []) →
  wp (len l) h Q.
Proof.
  intros Hok Herr. unfold len. apply wp_bind, wp_read; [|by auto].
  intros t Ht. apply wp_ret. eauto.
Qed.

Lemma wp_subset l m h (Q : post table) :
  (∀ t, h !! l = Some t → length m = nrows t → Q (Ok (select_rows t m)) h []) →
  (∀ e, Q (Raise e) h []) →
  wp (subset l m) h Q.
Proof.
  intros Hok Herr. unfold subset. apply wp_bind, wp_read; [|by auto].
  intros t Ht. apply wp_lift. unfold mask_rows. case_decide; eauto.
Qed.

Lemma wp_set_col l k c h (Q : post unit) :
  (∀ t, h !! l = Some t → length c = nrows t →
        Q (Ok tt) (<[l := Table (nrows t) (<[k := c]> (cols t))]> h) []) →
  (∀ e, Q (Raise e) h []) →
  wp (set_col l k c) h Q.
Proof.
  intros Hok Herr. unfold set_col. apply wp_bind, wp_read; [|by auto].
  intros t Ht. case_decide; [apply wp_write | apply wp_raise]; eauto.
Qed.

End Rules.

(** One step of a run: the rule for the action at the head of the
    computation, or a case split on what it branches on. *)
Ltac wp_step :=
  lazymatch goal with
  | |- wp (mbind _ _) _ _ => apply wp_bind
  | |- wp (mret _) _ _ => apply wp_ret
  | |- wp (raise _) _ _ => apply wp_raise
  | |- wp (emit _) _ _ => apply wp_emit
  | |- wp (lift _) _ _ => apply wp_lift
  | |- wp (log _ _) _ _ => apply wp_log
  | |- wp (write _ _) _ _ => apply wp_write
  | |- wp (alloc _) _ _ => apply wp_alloc
  | |- wp (read _) _ _ => apply wp_read; [intros ? ? | intros ?]
  | |- wp (get_col _ _) _ _ => apply wp_get_col; [intros ? ? ? ? | intros ?]
  | |- wp (has_col _ _) _ _ => apply wp_has_col; [intros ? ? | intros ?]
  | |- wp (len _) _ _ => apply wp_len; [intros ? ? | intros ?]
  | |- wp (subset _ _) _ _ => apply wp_subset; [intros ? ? ? | intros ?]
  | |- wp (set_col _ _ _) _ _ => apply wp_set_col; [intros ? ? ? | intros ?]
  | |- wp (match ?x with _ => _ end) _ _ => destruct x eqn:?
  | |- match ?x with _ => _ end => destruct x eqn:?
  end; cbn beta iota.

Ltac wp_run := repeat wp_step.

(** ** Masks and monotone narrowing *)

Section Masks.

Lemma sub_mask_refl m : sub_mask m m.
Proof. unfold sub_mask. induction m as [|[] m IH]; constructor; simpl; auto. Qed.

Lemma sub_mask_trans a b c : sub_mask a b → sub_mask b c → sub_mask a c.
Proof.
  unfold sub_mask. intros Hab. revert c.
  induction Hab as [|x y a b Hxy Hab IH]; intros c Hbc; inversion Hbc; subst; constructor; auto.
  destruct x, y; simpl in *; try done.
Qed.

Lemma sub_mask_length a b : sub_mask a b → length a = length b.
Proof. apply Forall2_length. Qed.

Lemma sub_mask_any a b : sub_mask a b → any_mask a = true → any_mask b = true.
Proof.
  unfold any_mask. induction 1 as [|x y a b Hxy Hab IH]; simpl; [done|].
  destruct x, y; simpl in *; auto; done.
Qed.

Lemma sub_mask_sum a b : sub_mask a b → (sum_mask a ≤ sum_mask b)%nat.
Proof.
  unfold sum_mask. induction 1 as [|x y a b Hxy Hab IH]; simpl; [done|].
  destruct x, y; simpl in *; try done; rewrite ?filter_cons; repeat case_decide; simpl; try done; lia.
Qed.

Lemma and_mask_sub a b m : and_mask a b = Ok m → sub_mask m a.
Proof.
  unfold and_mask. case_decide as Hlen; [|done]. intros [= <-].
  revert b Hlen. induction a as [|x a IH]; intros [|y b] Hlen; simpl in *; try done; try constructor.
  - by destruct x, y.
  - apply IH. lia.
Qed.

Lemma clear_at_sub m ix m' : clear_at m ix = Ok m' → sub_mask m' m.
Proof.
  unfold clear_at. destruct (forallb _ ix); [|done]. intros [= <-]. clear.
  induction ix as [|i ix IH]; simpl; [apply sub_mask_refl|].
  eapply sub_mask_trans; [|exact IH].
  generalize (foldr (λ i acc, <[i:=false]> acc) m ix). clear. intros l. revert i.
  induction l as [|x l IHl]; intros [|i]; simpl; try constructor; auto using sub_mask_refl.
  - by destruct x.
  - apply sub_mask_refl.
  - by destruct x.
  - apply IHl.
Qed.



Lemma descending_app hi ms1 ms2 :
  descending hi (ms1 ++ ms2) ↔ descending hi ms1 ∧ descending (default hi (last ms1)) ms2.
Proof.
  revert hi. induction ms1 as [|m ms1 IH]; intros hi; simpl; [tauto|].
  rewrite IH, last_cons. destruct (last ms1); simpl; tauto.
Qed.

Lemma descending_below hi ms : descending hi ms → Forall (λ m, sub_mask m hi) ms.
Proof.
  revert hi. induction ms as [|m ms IH]; intros hi; simpl; [constructor|].
  intros [Hm Hms]. constructor; [done|].
  eapply Forall_impl; [apply IH, Hms|]. intros m' Hm'. simpl in *. exact (sub_mask_trans _ _ _ Hm' Hm).
Qed.

End Masks.

(** Calling a computation whose behaviour is already known. *)
Ltac wp_use H :=
  lazymatch goal with
  | |- wp (mbind _ _) _ _ => apply wp_bind; eapply wp_mono; [apply H|]
  | |- _ => eapply wp_mono; [apply H|]
  end.


Section DropMatched.
Context `{C : Collaborators}.

Lemma drop_matched_spec obj col_id x m h :
  wp (drop_matched obj col_id x m) h
     (λ r h' es, h' = h ∧ es = [] ∧ ∀ m', r = Ok m' → sub_mask m' m).
Proof.
  unfold drop_matched. wp_run; repeat split; try done.
  - intros m' [= <-]. apply sub_mask_refl.
  - intros m' Hm. eapply and_mask_sub. exact Hm.
  - intros m' [= <-]. apply sub_mask_refl.
Qed.

End DropMatched.

Ltac wp_go :=
  repeat first
    [ wp_step
    | lazymatch goal with
      | |- wp (drop_matched _ _ _ _) _ _ =>
          eapply wp_mono; [apply drop_matched_spec|];
          intros ? ? ? (-> & -> & ?); cbn beta iota
      end ].

Ltac narrow_leaf :=
  unfold narrow_post;
  repeat match goal with |- context [if ?v then _ else _] => destruct v end;
  simpl; repeat split; try done;
  try (intros ? ?; simplify_eq; done);
  try (repeat constructor; done);
  eauto using and_mask_sub, clear_at_sub, sub_mask_refl.

Ltac quiet_leaf :=
  repeat match goal with |- context [if ?v then _ else _] => destruct v end;
  simpl; repeat constructor.


Section Narrowing.
Context `{C : Collaborators}.

Lemma masks_app (es1 es2 : list event) : masks (es1 ++ es2) = masks es1 ++ masks es2.
Proof. apply omap_app. Qed.

Lemma last_app_default {A} (l1 l2 : list A) d :
  default d (last (l1 ++ l2)) = default (default d (last l1)) (last l2).
Proof.
  destruct l2 as [|x l2 _] using rev_ind; [by rewrite app_nil_r|].
  by rewrite app_assoc, !last_snoc.
Qed.

Lemma narrow_post_app hi m es1 r es2 :
  narrow_post hi (Ok m) es1 → narrow_post m r es2 → narrow_post hi r (es1 ++ es2).
Proof.
  intros (Hd1 & Hg1 & Hl1) (Hd2 & Hg2 & Hl2). specialize (Hl1 m eq_refl). subst m.
  repeat split.
  - rewrite masks_app. apply descending_app. done.
  - apply Forall_app. done.
  - intros m' ->. rewrite masks_app, last_app_default. by apply Hl2.
Qed.

Lemma narrows_bind hi (c : M (list bool)) (f : list bool → M (list bool)) :
  narrows hi c → (∀ m, narrows m (f m)) → narrows hi (c ≫= f).
Proof.
  intros Hc Hf h. apply wp_bind. eapply wp_mono; [apply Hc|].
  intros [m|e] h' es Hpost; simpl.
  - eapply wp_mono; [apply Hf|]. intros r h'' es'. by apply narrow_post_app.
  - destruct Hpost as (?&?&?). repeat split; done.
Qed.



Lemma narrows_stage_flagged a obj m : narrows m (stage_flagged a obj m).
Proof. intros h. unfold stage_flagged. wp_run; narrow_leaf. Qed.


Lemma narrows_stage_local a obj sr m : narrows m (stage_local a obj sr m).
Proof. intros h. unfold stage_local. wp_run; narrow_leaf. Qed.

Lemma narrows_stage_vizier a obj sr col_id names m :
  narrows m (stage_vizier a obj sr col_id names m).
Proof.
  revert m. induction names as [|catname rest IH]; intros m h; simpl.
  - wp_run; narrow_leaf.
  - destruct (any_mask m) eqn:Hany; [|wp_run; narrow_leaf].
    wp_step. wp_step; [|narrow_leaf]. wp_step. wp_step.
    wp_use drop_matched_spec. intros r h' es (-> & -> & Hsub).
    destruct r as [m'|e]; [|narrow_leaf]. cbn beta iota.
    wp_step. wp_step. wp_step.
    destruct (catalogs_get catname); wp_run; [|narrow_leaf].
    wp_use IH. intros r h' es Hpost. simpl.
    assert (narrow_post m (Ok m') ([EvQuery (QVizier catname) (Some sr) m; EvMask m'] ++
      (if f_verbose a then [EvPrint (MsgRemainsAfter (sum_mask m') s)] else []))) as Hpre.
    { narrow_leaf. }
    generalize (narrow_post_app _ _ _ _ _ Hpre Hpost). by destruct (f_verbose a).
Qed.



Lemma narrows_stage_skybot a obj col_id m : narrows m (stage_skybot a obj col_id m).
Proof.
  intros h. unfold stage_skybot.
  destruct (f_skybot a && any_mask m) eqn:Hg; [|wp_run; narrow_leaf].
  apply andb_prop in Hg as [_ Hany].
  wp_go; narrow_leaf.
Qed.

Lemma narrows_stage_ned a obj sr col_id m : narrows m (stage_ned a obj sr col_id m).
Proof.
  intros h. unfold stage_ned.
  destruct (f_ned a && any_mask m) eqn:Hg; [|wp_run; narrow_leaf].
  apply andb_prop in Hg as [_ Hany].
  wp_go; narrow_leaf.
Qed.



Lemma narrows_all_stages a work sr col_id m0 :
  narrows m0 (m1 ← stage_flagged a work m0;
              m2 ← stage_local a work sr m1;
              m3 ← stage_vizier a work sr col_id (f_vizier a) m2;
              m4 ← stage_skybot a work col_id m3;
              stage_ned a work sr col_id m4).
Proof.
  repeat (apply narrows_bind; [|intros ?]);
    auto using narrows_stage_flagged, narrows_stage_local, narrows_stage_vizier,
               narrows_stage_skybot, narrows_stage_ned.
Qed.

Lemma narrow_post_trace m0 r es (v : bool) msg0 :
  narrow_post m0 r es →
  narrow_trace r ((if v then [EvPrint msg0] else []) ++ EvMask m0 :: es).
Proof.
  intros (Hd & Hg & Hl). unfold narrow_trace. rewrite masks_app.
  replace (masks (if v then [EvPrint msg0] else [])) with (@nil (list bool)) by by destruct v.
  simpl. repeat split; [done| |].
  - apply Forall_app. split; [destruct v; repeat constructor|by constructor].
  - intros m ->. rewrite last_cons, (Hl m eq_refl). by destruct (last (masks es)).
Qed.

Lemma filter_stages_trace a work sr col_id h :
  wp (filter_stages a work sr col_id) h (λ r _ es, narrow_trace r es).
Proof.
  unfold filter_stages. wp_step. wp_step; [|by repeat split].
  wp_step. wp_step. wp_step. wp_step.
  eapply wp_mono; [apply narrows_all_stages|]. intros r h' es Hpost. simpl.
  by apply narrow_post_trace.
Qed.


Lemma quiet_masks es : Forall (λ e, quiet e = true) es → masks es = [].
Proof. induction 1 as [|[] es He Hes IH]; simpl; try done. Qed.

Lemma quiet_guarded es : Forall (λ e, quiet e = true) es → Forall (λ e, guarded e = true) es.
Proof. intros H. eapply Forall_impl; [exact H|]. by intros []. Qed.

Lemma narrow_trace_pad r r' pre es post :
  narrow_trace r es →
  Forall (λ e, quiet e = true) pre → Forall (λ e, quiet e = true) post →
  (∀ m, r' = Ok m → r = Ok m) →
  narrow_trace r' (pre ++ es ++ post).
Proof.
  intros (Hd & Hg & Hl) Hpre Hpost Hr. unfold narrow_trace.
  rewrite !masks_app, (quiet_masks pre), (quiet_masks post), app_nil_r by done.
  simpl. repeat split; [done| |by auto].
  rewrite !Forall_app. auto using quiet_guarded.
Qed.

Lemma narrow_trace_quiet {A} (r : Res A) r' es :
  Forall (λ e, quiet e = true) es → (∀ m, r' ≠ Ok m) → narrow_trace r' es.
Proof.
  intros Hq Hr. unfold narrow_trace. rewrite quiet_masks by done.
  repeat split; [by apply quiet_guarded|]. intros m ?. by destruct (Hr m).
Qed.

Lemma filter_mask_trace a obj h :
  wp (filter_mask a obj) h (λ r _ es, narrow_trace r es).
Proof.
  unfold filter_mask.
  assert (∀ (r' : Res (list bool)) es, Forall (λ e, quiet e = true) es → (∀ m, r' ≠ Ok m) →
            narrow_trace r' es) as Hfail.
  { intros. by eapply (narrow_trace_quiet (Ok tt)). }
  wp_step.
  eapply wp_mono with (Q := λ r h' es, es = []).
  { unfold default_radius. wp_run; done. }
  intros [sr|e] h1 ? ->; [|by apply Hfail]. cbn beta iota zeta.
  wp_step.
  eapply wp_mono with (Q := λ r h' es, es = []).
  { unfold with_id, copy. wp_run; done. }
  intros [work|e] h2 ? ->; [|by apply Hfail]. cbn beta iota.
  wp_use filter_stages_trace. intros [m|e] h3 es Htr; cbn beta iota.
  - wp_run.
    + apply (narrow_trace_pad (Ok m) _ [] es); [done|constructor|quiet_leaf|done].
    + apply (narrow_trace_pad (Ok m) _ [] es); [done|constructor|quiet_leaf|done].
  - exact Htr.
Qed.



Lemma descending_lookup hi ms i j m1 m2 :
  descending hi ms → (i ≤ j)%nat → ms !! i = Some m1 → ms !! j = Some m2 → sub_mask m2 m1.
Proof.
  revert hi i j. induction ms as [|m ms IH]; intros hi i j; [done|].
  simpl. intros [Hm Hd] Hij Hi Hj. destruct i as [|i], j as [|j]; simpl in *; try lia.
  - simplify_eq. apply sub_mask_refl.
  - simplify_eq. apply descending_below in Hd.
    rewrite Forall_forall in Hd. apply Hd. by eapply list_elem_of_lookup_2.
  - eapply (IH m i j); eauto with lia.
Qed.

Lemma nonincreasing_lookup ms i j m1 m2 :
  nonincreasing ms → (i ≤ j)%nat → ms !! i = Some m1 → ms !! j = Some m2 → sub_mask m2 m1.
Proof.
  destruct ms as [|m ms]; [done|]. simpl. intros Hd.
  apply (descending_lookup m (m :: ms)). simpl. split; [apply sub_mask_refl|done].
Qed.

Lemma guarded_lookup e :
  guarded e = true → is_lookup e = true → ∃ m, event_mask e = Some m ∧ any_mask m = true.
Proof. destruct e; simpl; try done; eauto. Qed.

Lemma no_lookup_after_empty es pre e post m :
  nonincreasing (masks es) → Forall (λ e, guarded e = true) es →
  es = pre ++ e :: post → event_mask e = Some m → any_mask m = false →
  ∀ e', e' ∈ post → is_lookup e' = false.
Proof.
  intros Hd Hg -> Hm Hempty e' He'.
  destruct (is_lookup e') eqn:Hl; [exfalso|done].
  rewrite Forall_app, Forall_cons in Hg. destruct Hg as (_ & _ & Hg).
  rewrite Forall_forall in Hg. destruct (guarded_lookup e' (Hg _ He') Hl) as (m' & Hm' & Hany).
  apply list_elem_of_lookup in He' as [k Hk].
  assert (sub_mask m' m) as Hsub.
  { eapply (nonincreasing_lookup _ (length (masks pre)) (length (masks pre) + S (length (masks (take k post))))); [exact Hd|lia| |].
    - rewrite masks_app. simpl. rewrite Hm. by rewrite list_lookup_middle.
    - rewrite masks_app. simpl. rewrite Hm. rewrite lookup_app_r by lia.
      replace (length (masks pre) + S (length (masks (take k post))) - length (masks pre))%nat
        with (S (length (masks (take k post)))) by lia.
      simpl. rewrite <-(take_drop_middle post k e' Hk) at 2.
      rewrite masks_app. simpl. rewrite Hm'. by rewrite list_lookup_middle. }
  apply sub_mask_any in Hsub; [congruence|done].
Qed.

(** C3.  In [filter_transient_candidates] the candidates only get fewer:
    of any two masks observed in a run (after the flagged removal, the local
    catalogue, each Vizier catalogue, SkyBoT and NED, and at every lookup)
    the later one marks a subset of the earlier one, so none is ever added
    back and the count does not grow; every lookup is made for at least one
    candidate; and from the moment the mask is empty no catalogue, SkyBoT or
    NED query (nor a local match) follows.  The mask returned is the last
    one observed. *)
Theorem filter_monotonic_narrowing a obj h :
  let o := filter_transient_candidates a obj h in
  (∀ i j m1 m2, (i ≤ j)%nat → masks (evs o) !! i = Some m1 → masks (evs o) !! j = Some m2 →
     sub_mask m2 m1 ∧ (sum_mask m2 ≤ sum_mask m1)%nat) ∧
  (∀ e, e ∈ evs o → is_lookup e = true → ∃ m, event_mask e = Some m ∧ any_mask m = true) ∧
  (∀ pre e post m, evs o = pre ++ e :: post → event_mask e = Some m → any_mask m = false →
     ∀ e', e' ∈ post → is_lookup e' = false) ∧
  (∀ m, res o = Ok (CandMask m) → last (masks (evs o)) = Some m).
Proof.
  intros o.
  assert (nonincreasing (masks (evs o)) ∧ Forall (λ e, guarded e = true) (evs o) ∧
          ∀ m, res o = Ok (CandMask m) → last (masks (evs o)) = Some m) as (Hd & Hg & Hl).
  { subst o. change (wp (filter_transient_candidates a obj) h
      (λ r _ es, nonincreasing (masks es) ∧ Forall (λ e, guarded e = true) es ∧
                 ∀ m, r = Ok (CandMask m) → last (masks es) = Some m)).
    unfold filter_transient_candidates. wp_use filter_mask_trace.
    intros [m|e] h' es (Hd & Hg & Hl); cbn beta iota; [|done].
    wp_run; rewrite ?app_nil_r; repeat split; try done.
    intros m' [= <-]. by apply Hl. }
  repeat split.
  - eapply nonincreasing_lookup; eauto.
  - apply sub_mask_sum. eapply nonincreasing_lookup; eauto.
  - intros e He. rewrite Forall_forall in Hg. by apply guarded_lookup, Hg.
  - intros pre e post m. by apply no_lookup_after_empty.
  - done.
Qed.

End Narrowing.

(** ** The caller's tables *)

Section Frame.
Context `{C : Collaborators}.
Implicit Types (h : gmap loc table) (es : list event) (l : loc).

Lemma wp_keep {A} (c : M A) h (Q Q' : Res A → gmap loc table → list event → Prop) :
  wp c h Q →
  (∀ r h' es, r = res (c h) → h' = hp (c h) → es = evs (c h) → Q r h' es → Q' r h' es) →
  wp c h Q'.
Proof. unfold wp. auto. Qed.

Lemma reads_only_bind {A B} (c : M A) (f : A → M B) :
  reads_only c → (∀ a, reads_only (f a)) → reads_only (c ≫= f).
Proof.
  intros Hc Hf h. apply wp_bind. eapply wp_mono; [apply Hc|].
  intros [a|e] h' es ->; [apply Hf|done].
Qed.

Lemma reads_only_default_radius sr p obj : reads_only (default_radius sr p obj).
Proof. intros h. unfold default_radius. wp_run.
  all: reflexivity.
Qed.

Lemma reads_only_stage_flagged a obj m : reads_only (stage_flagged a obj m).
Proof. intros h. unfold stage_flagged. wp_run; done. Qed.

Lemma reads_only_stage_local a obj sr m : reads_only (stage_local a obj sr m).
Proof. intros h. unfold stage_local. wp_run; done. Qed.

Lemma reads_only_stage_vizier a obj sr col_id names m :
  reads_only (stage_vizier a obj sr col_id names m).
Proof.
  revert m. induction names as [|catname rest IH]; intros m h; simpl; [by wp_run|].
  wp_go; try done. by apply IH.
Qed.

Lemma reads_only_stage_skybot a obj col_id m : reads_only (stage_skybot a obj col_id m).
Proof. intros h. unfold stage_skybot. wp_go; done. Qed.

Lemma reads_only_stage_ned a obj sr col_id m : reads_only (stage_ned a obj sr col_id m).
Proof. intros h. unfold stage_ned. wp_go; done. Qed.

Lemma reads_only_filter_stages a work sr col_id : reads_only (filter_stages a work sr col_id).
Proof.
  unfold filter_stages.
  apply reads_only_bind; [intros h; by wp_run|intros n].
  apply reads_only_bind; [intros h; by wp_run|intros _].
  apply reads_only_bind; [intros h; by wp_run|intros _].
  repeat (apply reads_only_bind; [|intros ?]);
    auto using reads_only_stage_flagged, reads_only_stage_local, reads_only_stage_vizier,
               reads_only_stage_skybot, reads_only_stage_ned.
Qed.

(** The table the stages work on has as many rows as the caller's, and
    nothing the caller can reach has changed. *)
Lemma with_id_spec obj col_id h :
  wp (with_id obj col_id) h (λ r h' es,
    (∀ l, l ∈ dom h → h' !! l = h !! l) ∧
    ∀ work, r = Ok work →
      ∃ t t', h !! obj = Some t ∧ h' !! work = Some t' ∧ nrows t' = nrows t).
Proof.
  assert (∀ l, l ∈ dom h → l ≠ fresh (dom h)) as Hfresh.
  { intros l Hl ->. by apply (is_fresh (dom h)). }
  unfold with_id, copy. wp_run; (split; [try done|try (intros ? ?; simplify_eq; done)]);
    try (intros l Hl; rewrite !lookup_insert_ne by (apply not_eq_sym; auto); done).
  - intros work ?. simplify_eq. eauto.
  - intros work ?. simplify_eq.
    repeat match goal with
           | H : <[_ := _]> _ !! _ = Some _ |- _ => rewrite lookup_insert_eq in H
           end.
    simplify_eq. eexists _, _. split; [done|]. split; [apply lookup_insert_eq|done].
Qed.

(** The mask has one entry per row of the caller's table, which is not
    written to. *)
Lemma filter_mask_frame a obj h :
  wp (filter_mask a obj) h (λ r h' es,
    (∀ l, l ∈ dom h → h' !! l = h !! l) ∧
    ∀ m, r = Ok m → ∃ t, h !! obj = Some t ∧ length m = nrows t).
Proof.
  unfold filter_mask.
  wp_use reads_only_default_radius. intros [sr|e] ? _ ->; [|done]. cbn beta iota zeta.
  wp_use with_id_spec. intros [work|e] h1 _ (Hsame & Hwork); [|done]. cbn beta iota.
  destruct (Hwork work eq_refl) as (t & t' & Ht & Ht' & Hrows).
  wp_use reads_only_filter_stages. intros [m|e] ? _ ->; [|done]. cbn beta iota.
  wp_run; (split; [done|]); try (intros ? ?; simplify_eq; done).
  intros m' [= <-]. exists t. split; [done|]. congruence.
Qed.

(** C8.  [filter_transient_candidates] does not write to any table the
    caller holds: every reference of the initial heap, the input table among
    them, reads the same afterwards, so the synthetic identifier only ever
    lands in a copy.  When candidates are asked for, the result is a new
    reference, unknown to the initial heap, holding exactly the rows of the
    caller's original table that the final mask marks, with the columns of
    that table and no others.  When the mask is asked for, it has one entry
    per row of the input table. *)
Theorem filter_leaves_input_alone a obj h :
  let o := filter_transient_candidates a obj h in
  (∀ l, l ∈ dom h → hp o !! l = h !! l) ∧
  (∀ l', res o = Ok (Candidates l') →
     f_get_candidates a = true ∧ (l' ∉ dom h) ∧
     ∃ t m, h !! obj = Some t ∧ res (filter_mask a obj h) = Ok m ∧
            length m = nrows t ∧ hp o !! l' = Some (select_rows t m) ∧
            dom (cols (select_rows t m)) = dom (cols t)) ∧
  (∀ m, res o = Ok (CandMask m) →
     f_get_candidates a = false ∧ res (filter_mask a obj h) = Ok m ∧
     ∃ t, h !! obj = Some t ∧ length m = nrows t).
Proof.
  intros o. subst o.
  change (wp (filter_transient_candidates a obj) h (λ r h' _,
    (∀ l, l ∈ dom h → h' !! l = h !! l) ∧
    (∀ l', r = Ok (Candidates l') →
       f_get_candidates a = true ∧ (l' ∉ dom h) ∧
       ∃ t m, h !! obj = Some t ∧ res (filter_mask a obj h) = Ok m ∧
              length m = nrows t ∧ h' !! l' = Some (select_rows t m) ∧
              dom (cols (select_rows t m)) = dom (cols t)) ∧
    (∀ m, r = Ok (CandMask m) →
       f_get_candidates a = false ∧ res (filter_mask a obj h) = Ok m ∧
       ∃ t, h !! obj = Some t ∧ length m = nrows t))).
  unfold filter_transient_candidates. apply wp_bind.
  eapply wp_keep; [apply filter_mask_frame|].
  intros [m|e] h1 es Hr _ _ (Hsame & Hlen); [|by repeat split].
  destruct (Hlen m eq_refl) as (t & Ht & Hm).
  assert (∀ l0, l0 ∈ dom h → l0 ≠ fresh (dom h1)) as Hfresh.
  { intros l0 Hl ->. apply (is_fresh (dom h1)). apply elem_of_dom.
    rewrite Hsame by done. by apply elem_of_dom. }
  wp_run; (split; [|split]); try done; try (intros ? ?; simplify_eq).
  - rewrite lookup_insert_ne by (apply not_eq_sym; auto). by apply Hsame.
  - split; [done|]. split; [intros Hin; by apply (Hfresh _ Hin)|].
    assert (t0 = t) as ->.
    { assert (h1 !! obj = Some t) as Ht1; [|congruence].
      rewrite Hsame; [done|]. apply elem_of_dom. eauto. }
    exists t, m. repeat split; try done.
    + apply lookup_insert_eq.
    + simpl. apply dom_fmap_L.
  - eauto.
Qed.

End Frame.

(** ** The two paths of the refiner *)

Section Refine.
Context `{C : Collaborators}.
Implicit Types (h : gmap loc table) (es : list event) (l : loc).

Lemma fits_app es1 es2 : fits (es1 ++ es2) = fits es1 ++ fits es2.
Proof. apply omap_app. Qed.
Lemma matches_app es1 es2 : matches (es1 ++ es2) = matches es1 ++ matches es2.
Proof. apply omap_app. Qed.
Lemma scamp_calls_app es1 es2 : scamp_calls (es1 ++ es2) = scamp_calls es1 ++ scamp_calls es2.
Proof. apply omap_app. Qed.

(** The caller receives what the run ends with. *)
Lemma refine_astrometry_run a obj cat h :
  res (refine_astrometry a obj cat h) =
    match res (refine_run a obj cat h) with
    | Ok x => Ok (exit_value x)
    | Raise e => Raise e
    end ∧
  hp (refine_astrometry a obj cat h) = hp (refine_run a obj cat h) ∧
  evs (refine_astrometry a obj cat h) = evs (refine_run a obj cat h).
Proof.
  unfold refine_astrometry, mbind, M_bind, bind.
  destruct (res (refine_run a obj cat h)); simpl; rewrite ?app_nil_r; done.
Qed.

(** The prologue fits nothing and matches nothing. *)
Lemma refine_prologue_events a obj h :
  wp (refine_prologue a obj) h (λ _ _ es,
    fits es = [] ∧ matches es = [] ∧ scamp_calls es = []).
Proof.
  unfold refine_prologue, reproject. wp_run;
    repeat match goal with |- context [if ?v then _ else _] => destruct v end; done.
Qed.

(** One pass of the loop that falls through fits exactly once. *)
Lemma refine_iter_events a obj cat i h :
  wp (refine_iter a obj cat i) h (λ r _ es,
    scamp_calls es = [] ∧
    ∀ w, r = Ok (Completed w) →
      fits es = [w] ∧
      length (matches es) = (if r_use_photometry a then 1 else 0)%nat).
Proof.
  unfold refine_iter, refine_match_args, matched_rows, reproject.
  wp_run; (split; [|intros w' ?; simplify_eq]);
    repeat match goal with |- context [if ?v then _ else _] => destruct v end;
    try done.
Qed.

Lemma refine_loop_events a obj cat n i w0 h :
  wp (refine_loop a obj cat n i w0) h (λ r _ es,
    scamp_calls es = [] ∧
    ∀ w, r = Ok (Completed w) →
      length (fits es) = n ∧ w = default w0 (last (fits es)) ∧
      length (matches es) = (if r_use_photometry a then n else 0)%nat).
Proof.
  revert i w0 h. induction n as [|n IH]; intros i w0 h; simpl.
  - wp_run. split; [done|]. intros w [= <-]. by destruct (r_use_photometry a).
  - wp_use refine_iter_events. intros [[w1|]|e] h1 es1 [Hs1 Hiter]; cbn beta iota.
    + destruct (Hiter w1 eq_refl) as [Hf Hm].
      eapply wp_mono; [apply IH|]. intros r h2 es2 [Hs2 Hloop].
      split; [by rewrite scamp_calls_app, Hs1, Hs2|]. intros w ->.
      destruct (Hloop w eq_refl) as (Hn & Hw & Hms).
      rewrite fits_app, matches_app, !length_app, Hf, Hn, Hm, Hms. simpl.
      repeat split.
      * rewrite Hw. by destruct (fits es2) using rev_ind; [|rewrite app_comm_cons, !last_snoc].
      * by destruct (r_use_photometry a).
    + wp_run. rewrite app_nil_r. split; [done|]. by intros w.
    + split; [done|]. by intros w.
Qed.

(** C6.  When [method] is not ['scamp'] and the run leaves by the final
    [return wcs] (neither the too-few-matches exit nor an exception), the
    loop has made exactly [n_iter] fits, with [n_iter] photometric matches
    under [use_photometry] and none otherwise, the delegated solver was not
    called, and the value returned is the solution of the last fit; for
    [n_iter <= 0] nothing is fitted or matched and the caller's [wcs] (or
    [None]) comes back. *)
Theorem refine_fixed_iterations a obj cat h w :
  r_method a ≠ "scamp" →
  res (refine_run a obj cat h) = Ok (Completed w) →
  let o := refine_astrometry a obj cat h in
  res o = Ok w ∧
  length (fits (evs o)) = Z.to_nat (r_n_iter a) ∧
  w = default (r_wcs a) (last (fits (evs o))) ∧
  length (matches (evs o)) = (if r_use_photometry a then Z.to_nat (r_n_iter a) else 0)%nat ∧
  scamp_calls (evs o) = [] ∧
  ((r_n_iter a ≤ 0)%Z → w = r_wcs a ∧ fits (evs o) = [] ∧ matches (evs o) = []).
Proof.
  intros Hmethod Hres o.
  destruct (refine_astrometry_run a obj cat h) as (Hr & _ & He).
  subst o. rewrite Hr, He, Hres. clear Hr He. split; [done|].
  revert Hres.
  change (wp (refine_run a obj cat) h (λ r _ es,
    r = Ok (Completed w) →
    length (fits es) = Z.to_nat (r_n_iter a) ∧
    w = default (r_wcs a) (last (fits es)) ∧
    length (matches es) = (if r_use_photometry a then Z.to_nat (r_n_iter a) else 0)%nat ∧
    scamp_calls es = [] ∧
    ((r_n_iter a ≤ 0)%Z → w = r_wcs a ∧ fits es = [] ∧ matches es = []))).
  unfold refine_run. wp_use refine_prologue_events.
  intros [[]|e] h1 es1 (Hf1 & Hm1 & Hs1); cbn beta iota; [|done].
  unfold refine_body. case_decide; [done|].
  eapply wp_mono; [apply refine_loop_events|]. intros r h2 es2 [Hs2 Hloop] ->.
  destruct (Hloop w eq_refl) as (Hn & Hw & Hms).
  rewrite fits_app, matches_app, scamp_calls_app, Hf1, Hm1, Hs1. simpl.
  repeat split; try done.
  - rewrite Hw. replace (Z.to_nat (r_n_iter a)) with 0%nat in Hn by lia.
    by destruct (fits es2).
  - replace (Z.to_nat (r_n_iter a)) with 0%nat in Hn by lia. by destruct (fits es2).
  - replace (Z.to_nat (r_n_iter a)) with 0%nat in Hms by lia.
    destruct (matches es2); [done|]. by destruct (r_use_photometry a).
Qed.

(** C5.  With [method = 'scamp'] the loop is not entered: the run contains
    no fit and no photometric match, and whenever the call returns, it
    returns what the one call to [astrometry.refine_wcs_scamp] returned on
    the tables as the prologue left them. *)
Theorem refine_scamp_bypasses_loop a obj cat h :
  r_method a = "scamp" →
  let o := refine_astrometry a obj cat h in
  fits (evs o) = [] ∧ matches (evs o) = [] ∧
  ∀ r, res o = Ok r →
    scamp_calls (evs o) = [r] ∧
    ∃ tobj tcat,
      hp (refine_prologue a obj h) !! obj = Some tobj ∧
      hp (refine_prologue a obj h) !! cat = Some tcat ∧
      r = (refine_wcs_scamp tobj tcat (scamp_args_of a)).1.
Proof.
  intros Hmethod o.
  destruct (refine_astrometry_run a obj cat h) as (Hr & _ & He).
  subst o. rewrite Hr, He. clear Hr He.
  change (wp (refine_run a obj cat) h (λ r _ es,
    fits es = [] ∧ matches es = [] ∧
    ∀ v, match r with Ok x => Ok (exit_value x) | Raise e => Raise e end = Ok v →
      scamp_calls es = [v] ∧
      ∃ tobj tcat,
        hp (refine_prologue a obj h) !! obj = Some tobj ∧
        hp (refine_prologue a obj h) !! cat = Some tcat ∧
        v = (refine_wcs_scamp tobj tcat (scamp_args_of a)).1)).
  unfold refine_run. apply wp_bind.
  eapply wp_keep; [apply refine_prologue_events|].
  intros [[]|e] h1 es1 _ -> _ (Hf1 & Hm1 & Hs1); cbn beta iota; [|done].
  unfold refine_body. case_decide; [|done]. unfold refine_scamp.
  wp_run; rewrite ?fits_app, ?matches_app, ?scamp_calls_app, ?Hf1, ?Hm1, ?Hs1;
    (split; [done|split; [done|]]); intros v ?; simplify_eq.
  simpl. split; [done|]. eauto.
Qed.

End Refine.

(** ** Running the refiner twice *)

Section Twice.
Context `{C : Collaborators}.
Implicit Types (h : gmap loc table) (es : list event) (l : loc).

(** Without [update] a pass of the loop writes nothing. *)
Lemma reads_only_refine_iter a obj cat i :
  r_update a = false → reads_only (refine_iter a obj cat i).
Proof.
  intros Hu h. unfold refine_iter, refine_match_args, matched_rows. rewrite Hu.
  wp_run; done.
Qed.

Lemma reads_only_refine_loop a obj cat n i w0 :
  r_update a = false → reads_only (refine_loop a obj cat n i w0).
Proof.
  intros Hu. revert i w0. induction n as [|n IH]; intros i w0 h; simpl; [by wp_run|].
  wp_use (reads_only_refine_iter a obj cat i Hu). intros [[w1|]|e] h1 es1 ->; cbn beta iota.
  - apply IH.
  - by wp_run.
  - done.
Qed.

(** The rules for reading and writing a column, with the reason of every
    failure kept. *)
Lemma wp_get_col_cases l k h (Q : Res column → gmap loc table → list event → Prop) :
  (∀ t c, h !! l = Some t → cols t !! k = Some c → Q (Ok c) h []) →
  (h !! l = None → Q (Raise DanglingRef) h []) →
  (∀ t, h !! l = Some t → cols t !! k = None → Q (Raise (KeyError k)) h []) →
  wp (get_col l k) h Q.
Proof.
  intros Hok Hnone Hkey. unfold get_col. apply wp_bind, wp_read; [|by auto].
  intros t Ht. destruct (cols t !! k) eqn:Hk; [apply wp_ret | apply wp_raise]; eauto.
Qed.

Lemma wp_set_col_cases l k c h (Q : Res unit → gmap loc table → list event → Prop) :
  (∀ t, h !! l = Some t → length c = nrows t →
        Q (Ok tt) (<[l := Table (nrows t) (<[k := c]> (cols t))]> h) []) →
  (h !! l = None → Q (Raise DanglingRef) h []) →
  (∀ t, h !! l = Some t → length c ≠ nrows t → Q (Raise ValueError) h []) →
  wp (set_col l k c) h Q.
Proof.
  intros Hok Hnone Hlen. unfold set_col. apply wp_bind, wp_read; [|by auto].
  intros t Ht. case_decide; [apply wp_write | apply wp_raise]; eauto.
Qed.

(** Running the prologue on the heap it produced repeats what it did. *)
Lemma reproject_again obj w h :
  wp (reproject obj w) h (λ r h1 es,
    wp (reproject obj w) h1 (λ r' h2 es', r' = r ∧ h2 = h1 ∧ es' = es)).
Proof.
  unfold reproject.
  repeat (lazymatch goal with
    | |- wp (mbind _ _) _ _ => apply wp_bind
    | |- wp (emit _) _ _ => apply wp_emit
    | |- wp (get_col _ _) _ _ =>
        apply wp_get_col_cases; [intros ? ? ? ? | intros ? | intros ? ? ?]
    | |- wp (set_col _ _ _) _ _ =>
        apply wp_set_col_cases; [intros ? ? ? | intros ? | intros ? ? ?]
    end; cbn beta iota; simplify_map_eq).
  all: repeat split; try done.
  all: rewrite !insert_insert_eq; f_equal; f_equal.
  all: apply map_eq; intros k; rewrite !lookup_insert; repeat case_decide; done.
Qed.

Lemma refine_prologue_again a obj h :
  wp (refine_prologue a obj) h (λ r h1 es,
    wp (refine_prologue a obj) h1 (λ r' h2 es', r' = r ∧ h2 = h1 ∧ es' = es)).
Proof.
  unfold refine_prologue. apply wp_bind, wp_log. cbn beta iota.
  destruct (r_wcs a) as [w|].
  - eapply wp_mono; [apply reproject_again|]. intros r h1 es Hagain.
    apply wp_bind, wp_log. cbn beta iota.
    eapply wp_mono; [apply Hagain|]. by intros r' h2 es' (-> & -> & ->).
  - apply wp_ret, wp_bind, wp_log, wp_ret. done.
Qed.

Lemma reads_only_refine_body a obj cat :
  r_update a = false →
  (r_method a = "scamp" → scamp_respects_update) →
  reads_only (refine_body a obj cat).
Proof.
  intros Hu Hscamp h. unfold refine_body. case_decide as Hm.
  - unfold refine_scamp. wp_run; try done.
    rewrite (Hscamp Hm) by done. by apply insert_id.
  - by apply reads_only_refine_loop.
Qed.

(** A repeatable step followed by one that only reads is repeatable. *)
Lemma bind_again {A B} (p : M A) (b : M B) h :
  wp p h (λ r h1 es, wp p h1 (λ r' h2 es', r' = r ∧ h2 = h1 ∧ es' = es)) →
  reads_only b →
  let o1 := (p ≫= λ _, b) h in
  let o2 := (p ≫= λ _, b) (hp o1) in
  res o2 = res o1 ∧ hp o2 = hp o1 ∧ evs o2 = evs o1.
Proof.
  unfold wp, reads_only, wp. intros (Hr & Hh & He) Hb.
  unfold mbind, M_bind, bind. cbv zeta.
  destruct (res (p h)) as [x|e] eqn:Hres; cbn [res hp evs].
  - rewrite (Hb (hp (p h))), Hr. cbn [res hp evs]. by rewrite Hh, He.
  - rewrite Hr. cbn [res hp evs]. by rewrite Hh, He.
Qed.

(** Without [update], a second run from the heap the first one left repeats
    the first in every respect. *)
Lemma refine_repeatable a obj cat h :
  r_update a = false →
  (r_method a = "scamp" → scamp_respects_update) →
  let o1 := refine_astrometry a obj cat h in
  let o2 := refine_astrometry a obj cat (hp o1) in
  res o2 = res o1 ∧ hp o2 = hp o1 ∧ evs o2 = evs o1.
Proof.
  intros Hu Hscamp o1 o2. subst o1 o2.
  destruct (refine_astrometry_run a obj cat h) as (Hr1 & Hh1 & He1).
  rewrite Hh1.
  destruct (refine_astrometry_run a obj cat (hp (refine_run a obj cat h))) as (Hr2 & Hh2 & He2).
  rewrite Hr1, Hr2, Hh2, He1, He2. clear Hr1 Hr2 Hh1 Hh2 He1 He2.
  destruct (bind_again (refine_prologue a obj) (refine_body a obj cat) h
              (refine_prologue_again a obj h)
              (reads_only_refine_body a obj cat Hu Hscamp)) as (Hr & Hh & He).
  unfold refine_run. by rewrite Hr, Hh, He.
Qed.

(** C7.  With [n_iter = 1] and [update = False] (and, for ['scamp'], a
    solver that leaves the table alone when told not to update), calling
    [refine_astrometry] again with the same arguments on the heap the first
    call left gives the same result, the same heap and the same events:
    whatever the first call wrote (the projection through the initial
    solution) the second one writes again before reading it. *)
Theorem refine_twice_identical a obj cat h :
  r_n_iter a = 1%Z → r_update a = false →
  (r_method a = "scamp" → scamp_respects_update) →
  let o1 := refine_astrometry a obj cat h in
  let o2 := refine_astrometry a obj cat (hp o1) in
  res o2 = res o1 ∧ hp o2 = hp o1 ∧ evs o2 = evs o1.
Proof. intros _. apply refine_repeatable. Qed.

End Twice.

(** ** The colour term of the calibration *)

Section Calibrate.
Context `{C : Collaborators}.
Implicit Types (h : gmap loc table) (es : list event) (l : loc).

Lemma calib_match_args_spec a obj cat sr h :
  wp (calib_match_args a obj cat sr) h (λ r h' es,
    h' = h ∧ es = [] ∧ ∀ ma, r = Ok ma → color_of a cat h ma ∧ m_sr ma = sr).
Proof.
  unfold calib_match_args, get_col_opt, col_op.
  wp_run; (split; [done|split; [done|]]); intros ma ?; simplify_eq.
  case_decide; simplify_eq. split; [|done]. unfold color_of. simpl. eauto 12.
Qed.


Lemma default_radius_spec sr p obj h :
  wp (default_radius sr p obj) h (λ r h' es,
    h' = h ∧ es = [] ∧
    ∀ rad, r = Ok rad →
      match sr with Some r0 => rad = r0 | None => unset_radius p obj h rad end).
Proof.
  unfold default_radius, unset_radius.
  wp_run; (split; [done|split; [done|]]); intros rad ?; simplify_eq; eauto.
Qed.

(** C4.  [calibrate_photometry] computes [cat[cat_col_mag1] -
    cat[cat_col_mag2]] before it calls the matcher, whatever the column
    names are: every call of the matcher carries that difference as its
    colour, both names being given and present in the catalogue.  With
    either name left at [None], as by default, the call raises, without
    having called the matcher and without having written anything. *)
Theorem calibrate_always_computes_color a obj cat h :
  let o := calibrate_photometry a obj cat h in
  (∀ ma, ma ∈ matches (evs o) → color_of a cat h ma) ∧
  (c_cat_col_mag1 a = None ∨ c_cat_col_mag2 a = None →
   matches (evs o) = [] ∧ hp o = h ∧ ∃ e, res o = Raise e).
Proof.
  intros o. subst o.
  change (wp (calibrate_photometry a obj cat) h (λ r h' es,
    (∀ ma, ma ∈ matches es → color_of a cat h ma) ∧
    (c_cat_col_mag1 a = None ∨ c_cat_col_mag2 a = None →
     matches es = [] ∧ h' = h ∧ ∃ e, r = Raise e))).
  assert (∀ (v : bool) m0, matches (if v then [EvPrint m0] else []) = []) as Hlog.
  { by intros []. }
  unfold calibrate_photometry.
  wp_use default_radius_spec. intros [sr|e] ? ? (-> & -> & _); cbn beta iota;
    [|split; [by intros ma ?%elem_of_nil|by eauto]].
  wp_step. wp_step; [|split; [by intros ma ?%elem_of_nil|by eauto]].
  wp_step. wp_step; [|split; [by intros ma ?%elem_of_nil|by eauto]].
  wp_step. wp_step. wp_step. wp_step. wp_step.
  eapply wp_mono with (Q := λ r h' es, r = Ok tt ∧ h' = h ∧ matches es = []).
  { destruct (truthy _ && truthy _); [apply wp_log|apply wp_ret]; by rewrite ?Hlog. }
  intros ? ? es0 (-> & -> & Hes0). cbn beta iota.
  wp_use calib_match_args_spec. intros [ma|e] ? ? (-> & -> & Hma); cbn beta iota.
  - destruct (Hma ma eq_refl) as [Hcol _].
    assert (¬ (c_cat_col_mag1 a = None ∨ c_cat_col_mag2 a = None)) as Hnamed.
    { destruct Hcol as (k1 & k2 & ? & ? & ? & Hk1 & Hk2 & _). intros []; congruence. }
    wp_run; rewrite ?matches_app, ?Hlog, ?Hes0; simpl;
      (split; [by intros ma0 ->%list_elem_of_singleton|by intros ?]).
  - rewrite !matches_app, !Hlog, Hes0. simpl. split; [by intros ma ?%elem_of_nil|by eauto].
Qed.

End Calibrate.

(** ** The default radius *)

Section Radius.
Context `{C : Collaborators}.
Implicit Types (h : gmap loc table) (es : list event) (l : loc).


End Radius.


Section RadiusFlow.
Context `{C : Collaborators}.
Implicit Types (h : gmap loc table) (es : list event) (l : loc).












End RadiusFlow.

(** ** What the iterative refiner writes, and when it gives up *)

Section RefineFrame.
Context `{C : Collaborators}.
Implicit Types (h : gmap loc table) (es : list event) (l : loc).

Lemma same_but_sky_refl t : same_but_sky t t.
Proof. by split. Qed.

Lemma same_but_sky_trans t1 t2 t3 :
  same_but_sky t1 t2 → same_but_sky t2 t3 → same_but_sky t1 t3.
Proof.
  intros [Hn1 Hc1] [Hn2 Hc2]. split; [congruence|].
  intros k ? ?. by rewrite Hc2, Hc1.
Qed.

Lemma only_sky_written_refl obj h : only_sky_written obj h h.
Proof. split; [done|]. destruct (h !! obj) eqn:E; eauto using same_but_sky_refl. Qed.

Lemma only_sky_written_trans obj h1 h2 h3 :
  only_sky_written obj h1 h2 → only_sky_written obj h2 h3 → only_sky_written obj h1 h3.
Proof.
  intros [Ho1 Hobj1] [Ho2 Hobj2]. split.
  - intros l Hl. by rewrite Ho2, Ho1.
  - destruct (h1 !! obj) as [t1|].
    + destruct Hobj1 as (t2 & Ht2 & H12). rewrite Ht2 in Hobj2.
      destruct Hobj2 as (t3 & Ht3 & H23). eauto using same_but_sky_trans.
    + by rewrite Hobj1 in Hobj2.
Qed.

Lemma keeps_bind R `{!Transitive R} {A B} (c : M A) (f : A → M B) :
  keeps R c → (∀ a, keeps R (f a)) → keeps R (c ≫= f).
Proof.
  intros Hc Hf h. apply wp_bind. eapply wp_mono; [apply Hc|].
  intros [a|e] h1 es1 H1; [|done].
  eapply wp_mono; [apply Hf|]. intros r h2 es2 H2. by etrans.
Qed.

Lemma keeps_reads_only R `{!Reflexive R} {A} (c : M A) : reads_only c → keeps R c.
Proof. intros Hc h. eapply wp_mono; [apply Hc|]. by intros r h' es ->. Qed.

Lemma only_sky_written_preorder obj : PreOrder (only_sky_written obj).
Proof.
  split; [intros h; apply only_sky_written_refl|].
  intros h1 h2 h3. apply only_sky_written_trans.
Qed.
#[local] Existing Instance only_sky_written_preorder.

Lemma set_sky_only_sky obj k c :
  k = "ra" ∨ k = "dec" → keeps (only_sky_written obj) (set_col obj k c).
Proof.
  intros Hk h. wp_run; try apply only_sky_written_refl.
  split.
  - intros l Hl. by rewrite lookup_insert_ne.
  - rewrite H. eexists. split; [apply lookup_insert_eq|]. split; [done|].
    intros k' ? ?. simpl. rewrite lookup_insert_ne; [done|]. by destruct Hk as [-> | ->].
Qed.

Lemma reproject_only_sky obj w : keeps (only_sky_written obj) (reproject obj w).
Proof.
  unfold reproject.
  repeat lazymatch goal with
    | |- keeps _ (mbind _ _) => apply keeps_bind; [apply _| |intros ?]
    | |- keeps _ (set_col _ _ _) => apply set_sky_only_sky; auto
    | |- keeps _ _ => apply keeps_reads_only; [apply _|]; intros h; by wp_run
    end.
Qed.

Ltac keeps_go :=
  repeat lazymatch goal with
    | |- keeps _ (mbind _ _) => apply keeps_bind; [apply _| |intros ?]
    | |- keeps _ (reproject _ _) => apply reproject_only_sky
    | |- keeps _ (match ?x with _ => _ end) => destruct x
    | |- keeps _ _ => apply keeps_reads_only; [apply _|]; intros ?; by wp_run
    end.

Lemma refine_iter_only_sky a obj cat i :
  keeps (only_sky_written obj) (refine_iter a obj cat i).
Proof. unfold refine_iter, refine_match_args, matched_rows. keeps_go. Qed.

Lemma refine_loop_only_sky a obj cat n i w0 :
  keeps (only_sky_written obj) (refine_loop a obj cat n i w0).
Proof.
  revert i w0. induction n as [|n IH]; intros i w0; simpl.
  - apply keeps_reads_only; [apply _|]. intros h. by wp_run.
  - apply keeps_bind; [apply _|apply refine_iter_only_sky|].
    intros [w|]; [apply IH|]. apply keeps_reads_only; [apply _|]. intros h. by wp_run.
Qed.

Lemma refine_prologue_only_sky a obj :
  keeps (only_sky_written obj) (refine_prologue a obj).
Proof. unfold refine_prologue. keeps_go. Qed.

(** X1.  Unless [method] is ['scamp'], [refine_astrometry] changes nothing
    but the [ra] and [dec] columns of [obj]: every other table, the
    catalogue included, is the one it was, and [obj] keeps its number of
    rows and all its other columns, whatever the outcome of the call. *)
Theorem refine_only_writes_sky a obj cat h :
  r_method a ≠ "scamp" →
  only_sky_written obj h (hp (refine_astrometry a obj cat h)).
Proof.
  intros Hm. destruct (refine_astrometry_run a obj cat h) as (_ & -> & _).
  change (wp (refine_run a obj cat) h (λ _ h' _, only_sky_written obj h h')).
  revert h. change (keeps (only_sky_written obj) (refine_run a obj cat)).
  unfold refine_run, refine_body. rewrite decide_False by done.
  apply keeps_bind; [apply _|apply refine_prologue_only_sky|].
  intros _. apply refine_loop_only_sky.
Qed.

Lemma reproject_projected obj w h :
  wp (reproject obj w) h (λ r h' _, r = Ok tt → projected obj w h').
Proof.
  unfold reproject.
  repeat (lazymatch goal with
    | |- wp (mbind _ _) _ _ => apply wp_bind
    | |- wp (emit _) _ _ => apply wp_emit
    | |- wp (get_col _ _) _ _ =>
        apply wp_get_col_cases; [intros ? ? ? ? | intros ? | intros ? ? ?]
    | |- wp (set_col _ _ _) _ _ =>
        apply wp_set_col_cases; [intros ? ? ? | intros ? | intros ? ? ?]
    end; cbn beta iota; simplify_map_eq); try done.
  intros _. eexists _, c, c0. split; [apply lookup_insert_eq|]. simpl.
  by rewrite !lookup_insert_ne, ?lookup_insert_eq by done.
Qed.

Lemma refine_iter_projected a obj cat i h :
  r_update a = true →
  wp (refine_iter a obj cat i) h (λ r h' _,
    ∀ w, r = Ok (Completed w) → ∃ w', w = Some w' ∧ projected obj w' h').
Proof.
  intros Hu. unfold refine_iter. rewrite Hu. apply wp_bind.
  eapply wp_mono with (Q := λ _ _ _, True); [done|].
  intros [[w|]|e] h1 es1 _; cbn beta iota; [|by wp_run|done].
  destruct w as [w'|]; [|by wp_run].
  apply wp_bind. eapply wp_mono; [apply reproject_projected|].
  intros [[]|e] h2 es2 Hp; cbn beta iota; [|done].
  wp_run. intros w [= <-]. eauto.
Qed.

Lemma refine_loop_projected a obj cat n i w0 h :
  r_update a = true →
  wp (refine_loop a obj cat n i w0) h (λ r h' _,
    ∀ w, r = Ok (Completed w) →
      (n = 0%nat ∧ w = w0 ∧ h' = h) ∨ ∃ w', w = Some w' ∧ projected obj w' h').
Proof.
  intros Hu. revert i w0 h. induction n as [|n IH]; intros i w0 h; simpl.
  - wp_run. intros w [= <-]. by left.
  - apply wp_bind. eapply wp_mono; [by apply refine_iter_projected|].
    intros [[w1|]|e] h1 es1 Hiter; cbn beta iota; [|by wp_run|done].
    eapply wp_mono; [apply IH|]. intros r h2 es2 Hloop w ->. right.
    destruct (Hloop w eq_refl) as [(-> & -> & ->)|?]; [|done]. by apply Hiter.
Qed.

(** X2.  Unless [method] is ['scamp']: when [refine_astrometry] is called
    with [update] set and at least one iteration and returns a solution
    [w], the [ra] and [dec] columns of [obj] are [w.all_pix2world] of its
    [x] and [y] columns when the call returns. *)
Theorem refine_update_projects_result a obj cat h w :
  r_method a ≠ "scamp" → r_update a = true → (0 < r_n_iter a)%Z →
  res (refine_astrometry a obj cat h) = Ok (Some w) →
  projected obj w (hp (refine_astrometry a obj cat h)).
Proof.
  intros Hm Hu Hn.
  destruct (refine_astrometry_run a obj cat h) as (-> & -> & _).
  assert (wp (refine_run a obj cat) h (λ r h' _,
            ∀ x, r = Ok x → exit_value x = Some w → projected obj w h')) as Hrun.
  { unfold refine_run, refine_body. rewrite decide_False by done.
    apply wp_bind. eapply wp_mono with (Q := λ _ _ _, True); [done|].
    intros [[]|e] h1 es1 _; cbn beta iota; [|done].
    eapply wp_mono; [by apply refine_loop_projected|].
    intros r h2 es2 Hloop [w1|] -> Hw; simpl in Hw; [|done]. subst w1.
    destruct (Hloop _ eq_refl) as [(Hz & _)|(w' & [= <-] & Hp)]; [lia|done]. }
  unfold wp in Hrun. destruct (res (refine_run a obj cat h)) as [x|]; [|done].
  intros [= Hx]. by apply (Hrun x).
Qed.

(** X3.  Photometric matching, at least one iteration asked for
    ([n_iter >= 1]), with a matcher that always finds fewer good pairs than
    [min_matches]: [refine_astrometry] fits no solution at all, and
    whenever it returns it returns [None] after one single call of the
    matcher, however many iterations were asked for. *)
Theorem refine_too_few_aborts a obj cat h :
  r_method a ≠ "scamp" → r_use_photometry a = true → (0 < r_n_iter a)%Z →
  (∀ ma, ∃ mr, photometry_match ma = Some mr ∧
               (Z.of_nat (sum_mask (idx mr)) < r_min_matches a)%Z) →
  let o := refine_astrometry a obj cat h in
  fits (evs o) = [] ∧
  ∀ v, res o = Ok v → v = None ∧ length (matches (evs o)) = 1%nat.
Proof.
  intros Hm Hphot Hn Hfew o. subst o.
  destruct (refine_astrometry_run a obj cat h) as (-> & _ & ->).
  assert (wp (refine_run a obj cat) h (λ r _ es,
            fits es = [] ∧ ∀ x, r = Ok x → x = TooFew ∧ length (matches es) = 1%nat)) as Hrun.
  { unfold refine_run, refine_body. rewrite decide_False by done.
    wp_use refine_prologue_events. intros [[]|e] h1 es1 (Hf1 & Hm1 & _); cbn beta iota;
      [|by split].
    destruct (Z.to_nat (r_n_iter a)) as [|n] eqn:Hnat; [lia|]. simpl.
    apply wp_bind. unfold refine_iter. rewrite Hphot. apply wp_bind, wp_bind.
    eapply wp_mono with (Q := λ _ _ es, es = []).
    { unfold refine_match_args. wp_run; done. }
    intros [ma|e] h2 ? ->; cbn beta iota zeta;
      [|rewrite fits_app, Hf1; by split].
    destruct (Hfew ma) as (mr & -> & Hlt).
    apply Z.ltb_lt in Hlt. rewrite Hlt.
    wp_run; rewrite !fits_app, !matches_app, Hf1, Hm1;
      (split; [by destruct (r_verbose a)|]); intros x [= <-].
    split; [done|]. by destruct (r_verbose a). }
  unfold wp in Hrun. destruct Hrun as [Hf Hx]. split; [done|].
  destruct (res (refine_run a obj cat h)) as [x|]; [|done].
  intros v [= <-]. by destruct (Hx x eq_refl) as [-> ?].
Qed.

(** X4.  Positional matching with [update] set and no initial solution:
    when [astrometry.refine_wcs] returns [None] at the first pass,
    [refine_astrometry] raises [AttributeError] at
    [wcs.all_pix2world] instead of returning [None]; the fit was called
    once and the tables are as they were. *)
Theorem refine_failed_fit_raises a obj cat h tobj tcat :
  r_method a ≠ "scamp" → r_use_photometry a = false → r_update a = true →
  (0 < r_n_iter a)%Z → r_wcs a = None →
  h !! obj = Some tobj → h !! cat = Some tcat →
  refine_wcs tobj tcat (FitArgs (r_order a) (Some (r_sr a)) true (r_method a)) = None →
  let o := refine_astrometry a obj cat h in
  res o = Raise AttributeError ∧ hp o = h ∧ fits (evs o) = [None].
Proof.
  intros Hm Hphot Hu Hn Hwcs Hobj Hcat Hfit o. subst o.
  destruct (refine_astrometry_run a obj cat h) as (-> & -> & ->).
  assert (wp (refine_run a obj cat) h (λ r h' es,
            r = Raise AttributeError ∧ h' = h ∧ fits es = [None])) as Hrun.
  { unfold refine_run, refine_body, refine_prologue. rewrite decide_False, Hwcs by done.
    destruct (Z.to_nat (r_n_iter a)) as [|n] eqn:Hnat; [lia|]. simpl.
    unfold refine_iter. rewrite Hphot, Hu.
    repeat (lazymatch goal with
      | |- wp (mbind _ _) _ _ => apply wp_bind
      | |- wp (mret _) _ _ => apply wp_ret
      | |- wp (raise _) _ _ => apply wp_raise
      | |- wp (emit _) _ _ => apply wp_emit
      | |- wp (log _ _) _ _ => apply wp_log
      | |- wp (read _) _ _ => apply wp_read; [intros ? ? | intros ?]
      end; cbn beta iota; simplify_eq).
    rewrite Hfit. unfold wp. simpl. by destruct (r_verbose a). }
  unfold wp in Hrun. destruct Hrun as (-> & -> & ->). done.
Qed.

End RefineFrame.

(** ** Runs that differ in [verbose] only *)

Section Verbose.
Context `{C : Collaborators}.
Implicit Types (h : gmap loc table) (es : list event) (l : loc).

Lemma calls_app es1 es2 : calls (es1 ++ es2) = calls es1 ++ calls es2.
Proof. apply filter_app. Qed.

Lemma sim_refl {A} (c : M A) : sim c c.
Proof. by intros h. Qed.

Lemma sim_log v1 v2 m1 m2 : sim (log v1 m1) (log v2 m2).
Proof. intros h. by destruct v1, v2. Qed.

Lemma sim_bind {A B} (c1 c2 : M A) (f1 f2 : A → M B) :
  sim c1 c2 → (∀ a, sim (f1 a) (f2 a)) → sim (c1 ≫= f1) (c2 ≫= f2).
Proof.
  intros Hc Hf h. destruct (Hc h) as (Hr & Hh & He).
  unfold same_run, mbind, M_bind, bind. cbv zeta. rewrite <-Hr, <-Hh.
  destruct (res (c1 h)) as [a|e]; cbn [res hp evs]; [|done].
  destruct (Hf a (hp (c1 h))) as (Hr' & Hh' & He').
  by rewrite !calls_app, He, He', Hr', Hh'.
Qed.

End Verbose.

Ltac sim_go :=
  repeat lazymatch goal with
    | |- sim (mbind _ _) (mbind _ _) => apply sim_bind; [|intros ?]
    | |- sim (log _ _) (log _ _) => apply sim_log
    | |- sim (match ?x with _ => _ end) (match ?x with _ => _ end) => destruct x
    | |- sim _ _ => apply sim_refl
    end.

Section VerboseRuns.
Context `{C : Collaborators}.
Implicit Types (h : gmap loc table) (es : list event) (l : loc).

Lemma sim_refine_iter a v obj cat i :
  sim (refine_iter (refine_set_verbose a v) obj cat i) (refine_iter a obj cat i).
Proof.
  unfold refine_iter, refine_match_args.
  cbn [refine_set_verbose r_sr r_wcs r_order r_cat_col_mag r_cat_col_mag_err r_cat_col_ra
       r_cat_col_dec r_cat_col_ra_err r_cat_col_dec_err r_n_iter r_use_photometry
       r_min_matches r_method r_update r_verbose].
  sim_go.
Qed.

Ltac refine_fields :=
  cbn [refine_set_verbose r_sr r_wcs r_order r_cat_col_mag r_cat_col_mag_err r_cat_col_ra
       r_cat_col_dec r_cat_col_ra_err r_cat_col_dec_err r_n_iter r_use_photometry
       r_min_matches r_method r_update r_verbose].
Ltac filter_fields :=
  cbn [filter_set_verbose f_sr f_pixscale f_time f_cat f_cat_col_ra f_cat_col_dec
       f_vizier f_skybot f_ned f_flagged f_col_id f_get_candidates f_verbose].
Ltac calib_fields :=
  cbn [calib_set_verbose c_sr c_pixscale c_order c_threshold c_cat_col_mag c_cat_col_mag1
       c_cat_col_mag2 c_cat_col_ra c_cat_col_dec c_update c_verbose].

Lemma sim_refine_loop a v obj cat n i w0 :
  sim (refine_loop (refine_set_verbose a v) obj cat n i w0) (refine_loop a obj cat n i w0).
Proof.
  revert i w0. induction n as [|n IH]; intros i w0; simpl; [apply sim_refl|].
  apply sim_bind; [apply sim_refine_iter|]. intros [w|]; [apply IH|apply sim_refl].
Qed.

(** X5.  Unless [method] is ['scamp'], [verbose] changes nothing but what
    [refine_astrometry] prints: the result, the tables and the calls of
    the collaborators are the same for both values of [verbose].  (The
    SCAMP path hands [verbose] on to [refine_wcs_scamp].) *)
Theorem refine_verbose_only_prints a v obj cat h :
  r_method a ≠ "scamp" →
  same_run (refine_astrometry (refine_set_verbose a v) obj cat h)
           (refine_astrometry a obj cat h).
Proof.
  intros Hm. revert h.
  change (sim (refine_astrometry (refine_set_verbose a v) obj cat)
              (refine_astrometry a obj cat)).
  unfold refine_astrometry, refine_run, refine_body, refine_prologue. refine_fields.
  rewrite !decide_False by done.
  apply sim_bind; [|intros ?; apply sim_refl].
  apply sim_bind; [sim_go|]. intros _. apply sim_refine_loop.
Qed.

Lemma sim_stage_vizier a v obj sr col_id names m :
  sim (stage_vizier (filter_set_verbose a v) obj sr col_id names m)
      (stage_vizier a obj sr col_id names m).
Proof.
  revert m. induction names as [|catname rest IH]; intros m; simpl; [apply sim_refl|].
  filter_fields. destruct (any_mask m); [|apply sim_refl].
  repeat (apply sim_bind; [sim_go|intros ?]). apply IH.
Qed.

(** X6.  [verbose] changes nothing but what
    [filter_transient_candidates] prints: the result, the tables, the
    masks and the calls of the collaborators are the same for both values
    of [verbose]. *)
Theorem filter_verbose_only_prints a v obj h :
  same_run (filter_transient_candidates (filter_set_verbose a v) obj h)
           (filter_transient_candidates a obj h).
Proof.
  revert h.
  change (sim (filter_transient_candidates (filter_set_verbose a v) obj)
              (filter_transient_candidates a obj)).
  unfold filter_transient_candidates, filter_mask, filter_stages,
    stage_flagged, stage_local, stage_skybot, stage_ned.
  filter_fields.
  repeat lazymatch goal with
    | |- sim (mbind _ (stage_vizier _ _ _ _ _ _)) _ =>
        apply sim_bind; [apply sim_stage_vizier|intros ?]
    | |- sim (mbind _ _) (mbind _ _) => apply sim_bind; [|intros ?]
    | |- sim (log _ _) (log _ _) => apply sim_log
    | |- sim (match ?x with _ => _ end) (match ?x with _ => _ end) => destruct x
    | |- sim _ _ => apply sim_refl
    end.
Qed.

(** X7.  [verbose] changes nothing but what [calibrate_photometry]
    prints: the result, the tables and the call of the matcher are the same
    for both values of [verbose]. *)
Theorem calibrate_verbose_only_prints a v obj cat h :
  same_run (calibrate_photometry (calib_set_verbose a v) obj cat h)
           (calibrate_photometry a obj cat h).
Proof.
  revert h.
  change (sim (calibrate_photometry (calib_set_verbose a v) obj cat)
              (calibrate_photometry a obj cat)).
  unfold calibrate_photometry, calib_match_args. calib_fields. sim_go.
Qed.

End VerboseRuns.

(** ** What the candidate filter removes and asks *)

Section FilterMore.
Context `{C : Collaborators}.
Implicit Types (h : gmap loc table) (es : list event) (l : loc).

Lemma and_mask_sub_r a b m : and_mask a b = Ok m → sub_mask m b.
Proof.
  unfold and_mask. case_decide as Hlen; [|done]. intros [= <-].
  revert b Hlen. induction a as [|x a IH]; intros [|y b] Hlen; simpl in *; try done; try constructor.
  - by destruct x, y.
  - apply IH. lia.
Qed.

Lemma sub_mask_lookup a b i : sub_mask a b → a !! i = Some true → b !! i = Some true.
Proof.
  intros Hab. revert i. induction Hab as [|x y a b Hxy Hab IH]; intros [|i]; simpl; try done.
  - intros [= ->]. simpl in Hxy. by subst.
  - apply IH.
Qed.

(** What a narrowing computation returns is within what it was given. *)
Lemma narrows_result hi (c : M (list bool)) h m :
  narrows hi c → res (c h) = Ok m → sub_mask m hi.
Proof.
  intros Hc Hres. destruct (Hc h) as (Hd & _ & Hl). rewrite (Hl m Hres).
  apply descending_below in Hd.
  destruct (last (masks (evs (c h)))) as [m'|] eqn:Hlast; simpl; [|apply sub_mask_refl].
  rewrite Forall_forall in Hd. apply Hd. rewrite last_lookup in Hlast.
  by eapply list_elem_of_lookup_2.
Qed.

(** The working table has the caller's columns, and the caller's other
    tables are where they were. *)
Lemma with_id_cols obj col_id h :
  wp (with_id obj col_id) h (λ r h' es,
    es = [] ∧ (∀ l, l ∈ dom h → h' !! l = h !! l) ∧
    ∀ work, r = Ok work →
      ∃ t t', h !! obj = Some t ∧ h' !! work = Some t' ∧ nrows t' = nrows t ∧
              (∀ k c, cols t !! k = Some c → cols t' !! k = Some c) ∧
              (∀ k, k ≠ col_id → cols t' !! k = cols t !! k)).
Proof.
  assert (∀ l, l ∈ dom h → l ≠ fresh (dom h)) as Hfresh.
  { intros l Hl ->. by apply (is_fresh (dom h)). }
  unfold with_id, copy. wp_run; (split; [done|]);
    (split; [try done|try (intros ? ?; simplify_eq; done)]);
    try (intros l Hl; rewrite !lookup_insert_ne by (apply not_eq_sym; auto); done).
  - intros work ?. simplify_eq. eauto 10.
  - intros work ?. simplify_eq.
    repeat match goal with
           | H : <[_ := _]> _ !! _ = Some _ |- _ => rewrite lookup_insert_eq in H
           end.
    simplify_eq. eexists _, _. split; [done|]. split; [apply lookup_insert_eq|].
    simpl. repeat split; try done.
    + intros k c Hk. rewrite lookup_insert_ne; [done|]. intros <-.
      apply bool_decide_eq_false in Heqb. apply Heqb. eauto.
    + intros k Hk. by rewrite lookup_insert_ne.
Qed.

(** A sequence that returns has run both of its parts. *)
Lemma bind_ok_inv {A B} (c : M A) (f : A → M B) h b :
  res ((c ≫= f) h) = Ok b →
  ∃ a, res (c h) = Ok a ∧ res (f a (hp (c h))) = Ok b.
Proof.
  unfold mbind, M_bind, bind. destruct (res (c h)) as [a|e] eqn:E; simpl; [eauto|done].
Qed.

Lemma any_mask_lookup m i : m !! i = Some true → any_mask m = true.
Proof.
  unfold any_mask. revert i. induction m as [|b m IH]; intros [|i]; simpl; try done.
  - by intros [= ->].
  - intros Hi. rewrite (IH i Hi). apply orb_true_r.
Qed.

Lemma clear_at_lookup m ix m' i : clear_at m ix = Ok m' → i ∈ ix → m' !! i ≠ Some true.
Proof.
  unfold clear_at. destruct (forallb _ ix) eqn:Hall; [|done]. intros [= <-] Hi.
  rewrite forallb_forall in Hall.
  induction ix as [|j ix IH]; [by apply elem_of_nil in Hi|]. simpl.
  assert (length (foldr (λ i acc, <[i:=false]> acc) m ix) = length m) as Hlen.
  { clear. induction ix; simpl; [done|]. by rewrite length_insert. }
  destruct (decide (i = j)) as [->|Hne].
  - rewrite list_lookup_insert_eq; [done|]. rewrite Hlen.
    apply Nat.ltb_lt, Hall. by left.
  - rewrite list_lookup_insert_ne by done. apply IH.
    + intros x Hx. apply Hall. by right.
    + apply elem_of_cons in Hi as [?|?]; done.
Qed.

Lemma stage_flagged_result a work m0 h m1 :
  f_flagged a = true → res (stage_flagged a work m0 h) = Ok m1 →
  ∃ t flags, h !! work = Some t ∧ cols t !! "flags" = Some flags ∧
             sub_mask m1 (unflagged flags).
Proof.
  intros Hf. revert m1.
  change (wp (stage_flagged a work m0) h (λ r _ _, ∀ m1, r = Ok m1 →
    ∃ t flags, h !! work = Some t ∧ cols t !! "flags" = Some flags ∧
               sub_mask m1 (unflagged flags))).
  unfold stage_flagged. rewrite Hf. wp_run; intros m1 ?; simplify_eq.
  exists t, c. repeat split; try done. by eapply and_mask_sub_r.
Qed.

Lemma stage_local_result a work sr m1 h m2 cat t tc ra dec cra cdec :
  f_cat a = Some cat → res (stage_local a work sr m1 h) = Ok m2 →
  h !! work = Some t → cols t !! "ra" = Some ra → cols t !! "dec" = Some dec →
  h !! cat = Some tc → cols tc !! f_cat_col_ra a = Some cra →
  cols tc !! f_cat_col_dec a = Some cdec →
  ∀ i, i ∈ htm_match ra dec cra cdec sr → m2 !! i ≠ Some true.
Proof.
  intros Hcat Hres Hw Hra Hdec Hc Hcra Hcdec. revert m2 Hres.
  change (wp (stage_local a work sr m1) h (λ r _ _, ∀ m2, r = Ok m2 →
    ∀ i, i ∈ htm_match ra dec cra cdec sr → m2 !! i ≠ Some true)).
  unfold stage_local. rewrite Hcat. wp_run; intros m2 ?; simplify_eq.
  - intros i Hi. by eapply clear_at_lookup.
  - intros i _ Hi. apply any_mask_lookup in Hi. congruence.
Qed.

Lemma reads_only_hp {A} (c : M A) h : reads_only c → hp (c h) = h.
Proof. intros Hc. apply Hc. Qed.

Lemma narrows_rest a work sr col_id m2 :
  narrows m2 (m3 ← stage_vizier a work sr col_id (f_vizier a) m2;
              m4 ← stage_skybot a work col_id m3;
              stage_ned a work sr col_id m4).
Proof.
  repeat (apply narrows_bind; [|intros ?]);
    auto using narrows_stage_vizier, narrows_stage_skybot, narrows_stage_ned.
Qed.

(** The stages, taken apart: the mask after the flagged removal, the one
    after the local match, and the final one within both. *)
Lemma filter_stages_inv a work sr col_id h m :
  res (filter_stages a work sr col_id h) = Ok m →
  ∃ t m1 m2,
    h !! work = Some t ∧
    res (stage_flagged a work (replicate (nrows t) true) h) = Ok m1 ∧
    res (stage_local a work sr m1 h) = Ok m2 ∧
    sub_mask m2 m1 ∧ sub_mask m m2.
Proof.
  unfold filter_stages. intros Hres.
  apply bind_ok_inv in Hres as (n & Hn & Hres).
  assert (hp (len work h) = h ∧ ∃ t, h !! work = Some t ∧ n = nrows t) as (Hh & t & Ht & ->).
  { revert Hn. change (wp (len work) h (λ r h' _, r = Ok n →
      h' = h ∧ ∃ t, h !! work = Some t ∧ n = nrows t)).
    wp_run; intros ?; simplify_eq; eauto. }
  rewrite Hh in Hres.
  apply bind_ok_inv in Hres as ([] & _ & Hres).
  assert (∀ v m0, hp (log v m0 h) = h) as Hlog by by intros [] ?.
  rewrite Hlog in Hres.
  apply bind_ok_inv in Hres as ([] & _ & Hres). cbn [hp emit] in Hres.
  apply bind_ok_inv in Hres as (m1 & H1 & Hres).
  rewrite (reads_only_hp _ _ (reads_only_stage_flagged _ _ _)) in Hres.
  apply bind_ok_inv in Hres as (m2 & H2 & Hres).
  rewrite (reads_only_hp _ _ (reads_only_stage_local _ _ _ _)) in Hres.
  exists t, m1, m2. repeat split; try done.
  - eapply narrows_result; [apply narrows_stage_local|done].
  - eapply narrows_result; [apply narrows_rest|done].
Qed.

(** A run of the filter that produces a mask, taken apart. *)
Lemma filter_mask_inv a obj h m :
  res (filter_mask a obj h) = Ok m →
  ∃ sr work h1 t t',
    res (default_radius (f_sr a) (f_pixscale a) obj h) = Ok sr ∧
    h !! obj = Some t ∧ h1 !! work = Some t' ∧ nrows t' = nrows t ∧
    (∀ k c, cols t !! k = Some c → cols t' !! k = Some c) ∧
    (∀ k, k ≠ default "stdpipe_id" (f_col_id a) → cols t' !! k = cols t !! k) ∧
    (∀ l, l ∈ dom h → h1 !! l = h !! l) ∧
    res (filter_stages a work sr (default "stdpipe_id" (f_col_id a)) h1) = Ok m ∧
    length m = nrows t.
Proof.
  unfold filter_mask. intros Hres.
  apply bind_ok_inv in Hres as (sr & Hsr & Hres).
  rewrite (reads_only_hp _ _ (reads_only_default_radius _ _ _)) in Hres. cbv zeta in Hres.
  apply bind_ok_inv in Hres as (work & Hwork & Hres).
  destruct (with_id_cols obj (default "stdpipe_id" (f_col_id a)) h) as (_ & Hsame & Hw).
  destruct (Hw work Hwork) as (t & t' & Ht & Ht' & Hrows & Hcols & Hother).
  apply bind_ok_inv in Hres as (m' & Hm & Hres).
  rewrite (reads_only_hp _ _ (reads_only_filter_stages _ _ _ _)) in Hres.
  apply bind_ok_inv in Hres as (rows & Hrows' & Hres).
  assert (m' = m) as ->.
  { apply bind_ok_inv in Hres as ([] & _ & Hres). by injection Hres. }
  exists sr, work, (hp (with_id obj (default "stdpipe_id" (f_col_id a)) h)), t, t'.
  repeat split; try done.
  revert Hrows'. unfold subset, mbind, M_bind, bind, read. rewrite Ht'. simpl.
  unfold mask_rows. case_decide; [congruence|done].
Qed.

(** What the caller receives is the mask, or the rows of the caller's table
    that the mask marks. *)
Lemma filter_result_cases a obj h r :
  res (filter_transient_candidates a obj h) = Ok r →
  ∃ m t, res (filter_mask a obj h) = Ok m ∧ h !! obj = Some t ∧ length m = nrows t ∧
         (r = CandMask m ∨
          ∃ l, r = Candidates l ∧
               hp (filter_transient_candidates a obj h) !! l = Some (select_rows t m)).
Proof.
  revert r.
  change (wp (filter_transient_candidates a obj) h (λ r h' _, ∀ x, r = Ok x →
    ∃ m t, res (filter_mask a obj h) = Ok m ∧ h !! obj = Some t ∧ length m = nrows t ∧
           (x = CandMask m ∨ ∃ l, x = Candidates l ∧ h' !! l = Some (select_rows t m)))).
  unfold filter_transient_candidates. apply wp_bind.
  eapply wp_keep; [apply filter_mask_frame|].
  intros [m|e] h1 es Hr _ _ (Hsame & Hlen); [|done].
  destruct (Hlen m eq_refl) as (t & Ht & Hm).
  assert (h1 !! obj = Some t) as Ht1.
  { rewrite Hsame; [done|]. apply elem_of_dom. eauto. }
  wp_run; intros x ?; simplify_eq; exists m, t; repeat split; try done.
  - right. eexists. split; [done|]. apply lookup_insert_eq.
  - by left.
Qed.

Lemma select_sub_mask {A} (P : A → bool) m (l : list A) :
  sub_mask m (P <$> l) → Forall (λ x, P x = true) (select m l).
Proof.
  revert l. induction m as [|b m IH]; intros [|x l] Hsub; simpl; try constructor;
    inversion Hsub; subst.
  destruct b; [constructor|]; auto.
Qed.

(** X8.  With [remove_flagged] set, no flagged detection is a candidate:
    every row marked in the mask returned has [flags] equal to 0 in the
    caller's table, and every row of the table of candidates returned has
    [flags] equal to 0. *)
Theorem filter_drops_flagged a obj h t flags :
  f_flagged a = true → h !! obj = Some t → cols t !! "flags" = Some flags →
  let o := filter_transient_candidates a obj h in
  (∀ m, res o = Ok (CandMask m) → ∀ i, m !! i = Some true → flags !! i = Some 0%Qc) ∧
  (∀ l, res o = Ok (Candidates l) →
     ∃ tr, hp o !! l = Some tr ∧
           ∀ c, cols tr !! "flags" = Some c → Forall (λ v, v = 0%Qc) c).
Proof.
  intros Hf Ht Hflags o. subst o.
  assert (∀ m, res (filter_mask a obj h) = Ok m → sub_mask m (unflagged flags)) as Hmask.
  { intros m Hm.
    destruct (filter_mask_inv a obj h m Hm)
      as (sr & work & h1 & t0 & t' & _ & Ht0 & Ht' & _ & Hcols & _ & _ & Hst & _).
    simplify_eq.
    destruct (filter_stages_inv _ _ _ _ _ _ Hst) as (t1 & m1 & m2 & Ht1 & H1 & _ & H21 & H2).
    destruct (stage_flagged_result _ _ _ _ _ Hf H1) as (t2 & flags' & Ht2 & Hfl & Hsub).
    simplify_eq. rewrite (Hcols _ _ Hflags) in Hfl. simplify_eq.
    eauto using sub_mask_trans. }
  split.
  - intros m Hres i Hi.
    destruct (filter_result_cases a obj h _ Hres) as (m' & t' & Hm & _ & _ & [Heq|(l & Heq & _)]);
      simplify_eq.
    pose proof (sub_mask_lookup _ _ i (Hmask _ Hm) Hi) as Hz.
    unfold unflagged in Hz. rewrite list_lookup_fmap in Hz.
    apply fmap_Some in Hz as (v & Hv & Hb).
    symmetry in Hb. apply bool_decide_eq_true in Hb. subst v. exact Hv.
  - intros l Hres.
    destruct (filter_result_cases a obj h _ Hres)
      as (m & t' & Hm & Ht' & _ & [Heq|(l' & Heq & Hl)]); simplify_eq.
    eexists. split; [done|]. intros c Hc. simpl in Hc. rewrite lookup_fmap in Hc.
    apply fmap_Some in Hc as (fl & Hfl & ->).
    assert (fl = flags) as -> by (unfold column in *; congruence).
    eapply Forall_impl; [apply (select_sub_mask (λ v, bool_decide (v = 0%Qc))), Hmask, Hm|].
    intros v Hv. simpl in Hv. by apply bool_decide_eq_true in Hv.
Qed.

(** X9.  With a local catalogue [cat], no detection that
    [htm_match] pairs with a catalogue star within the radius is marked in
    the mask returned. *)
Theorem filter_drops_local_matches a obj h cat sr t tc ra dec cra cdec m :
  f_cat a = Some cat →
  res (default_radius (f_sr a) (f_pixscale a) obj h) = Ok sr →
  h !! obj = Some t → cols t !! "ra" = Some ra → cols t !! "dec" = Some dec →
  h !! cat = Some tc → cols tc !! f_cat_col_ra a = Some cra →
  cols tc !! f_cat_col_dec a = Some cdec →
  res (filter_transient_candidates a obj h) = Ok (CandMask m) →
  ∀ i, i ∈ htm_match ra dec cra cdec sr → m !! i ≠ Some true.
Proof.
  intros Hcat Hsr Ht Hra Hdec Htc Hcra Hcdec Hres i Hi.
  assert (res (filter_mask a obj h) = Ok m) as Hm.
  { destruct (filter_result_cases a obj h _ Hres) as (m' & ? & Hm & _ & _ & [Heq|(l & Heq & _)]);
      by simplify_eq. }
  destruct (filter_mask_inv a obj h m Hm)
    as (sr' & work & h1 & t0 & t' & Hsr' & Ht0 & Ht' & _ & Hcols & _ & Hsame & Hst & _).
  assert (sr' = sr) as -> by congruence. simplify_eq.
  destruct (filter_stages_inv _ _ _ _ _ _ Hst) as (t1 & m1 & m2 & Ht1 & _ & H2 & _ & Hsub).
  simplify_eq.
  assert (h1 !! cat = Some tc) as Htc1.
  { rewrite Hsame; [done|]. apply elem_of_dom. eauto. }
  pose proof (stage_local_result _ _ _ _ _ _ _ _ _ _ _ _ _ Hcat H2 Ht' (Hcols _ _ Hra)
                (Hcols _ _ Hdec) Htc1 Hcra Hcdec i Hi) as Hclear.
  intros Htrue. apply Hclear. by eapply sub_mask_lookup.
Qed.

Lemma queries_app es1 es2 : queries (es1 ++ es2) = queries es1 ++ queries es2.
Proof. apply omap_app. Qed.

Lemma queries_log (v : bool) m0 : queries (if v then [EvPrint m0] else []) = [].
Proof. by destruct v. Qed.

Lemma stage_vizier_queries a obj sr col_id names m h :
  wp (stage_vizier a obj sr col_id names m) h (λ _ _ es,
    ∃ ns, queries es = QVizier <$> ns ∧ ns `prefix_of` names).
Proof.
  revert m h. induction names as [|catname rest IH]; intros m h; simpl.
  - wp_run. by exists [].
  - destruct (any_mask m); [|wp_run; exists []; split; [done|apply prefix_nil]].
    wp_go; try (by exists []; split; [done|apply prefix_nil]);
      try (by exists [catname]; split; [done|apply prefix_cons, prefix_nil]).
    eapply wp_mono; [apply IH|]. intros r' h' es (ns & Hq & Hp).
      exists (catname :: ns). simpl. rewrite !queries_app, queries_log, Hq. simpl.
      split; [done|by apply prefix_cons].
Qed.

Lemma stage_skybot_queries a obj col_id m h :
  wp (stage_skybot a obj col_id m) h (λ _ _ es,
    queries es = [] ∨ (queries es = [QSkybot] ∧ f_skybot a = true)).
Proof.
  unfold stage_skybot. destruct (f_skybot a); simpl; [|wp_run; by left].
  wp_go; rewrite ?queries_app, ?queries_log; simpl; auto.
Qed.

Lemma stage_ned_queries a obj sr col_id m h :
  wp (stage_ned a obj sr col_id m) h (λ _ _ es,
    queries es = [] ∨ (queries es = [QNed] ∧ f_ned a = true)).
Proof.
  unfold stage_ned. destruct (f_ned a); simpl; [|wp_run; by left].
  wp_go; rewrite ?queries_app, ?queries_log; simpl; auto.
Qed.

Lemma query_shape_nil a : query_shape a [].
Proof. exists [], [], []. repeat split; auto. apply prefix_nil. Qed.

Lemma filter_stages_queries a work sr col_id h :
  wp (filter_stages a work sr col_id) h (λ _ _ es, query_shape a (queries es)).
Proof.
  unfold filter_stages. wp_step. wp_step; [|apply query_shape_nil].
  wp_step. wp_step. wp_step. wp_step. wp_step.
  eapply wp_mono with (Q := λ _ _ es, queries es = []).
  { unfold stage_flagged. wp_run; done. }
  intros [m1|e] h1 es1 H1; cbn beta iota;
    [|rewrite !queries_app, queries_log, H1; apply query_shape_nil].
  wp_step.
  eapply wp_mono with (Q := λ _ _ es, queries es = []).
  { unfold stage_local. wp_run; rewrite ?queries_app, ?queries_log; done. }
  intros [m2|e] h2 es2 H2; cbn beta iota;
    [|rewrite !queries_app, queries_log, H1, H2; apply query_shape_nil].
  wp_use stage_vizier_queries. intros [m3|e] h3 es3 (ns & H3 & Hp); cbn beta iota.
  2:{ rewrite !queries_app, queries_log, H1, H2, H3. simpl.
      exists ns, [], []. rewrite !app_nil_r. repeat split; auto. }
  wp_use stage_skybot_queries. intros [m4|e] h4 es4 Hsky; cbn beta iota.
  2:{ rewrite !queries_app, queries_log, H1, H2, H3. simpl.
      exists ns, (queries es4), []. rewrite !app_nil_r. repeat split; auto. }
  eapply wp_mono; [apply stage_ned_queries|]. intros r h5 es5 Hned.
  rewrite !queries_app, queries_log, H1, H2, H3. simpl.
  exists ns, (queries es4), (queries es5). repeat split; auto.
Qed.

(** X10.  The catalogue services are asked in a fixed order: first Vizier,
    for an initial segment of the names of [vizier] in their order, then
    SkyBoT at most once and only if [skybot] is set, then NED at most once
    and only if [ned] is set. *)
Theorem filter_queries_in_order a obj h :
  ∃ names sky ned,
    queries (evs (filter_transient_candidates a obj h))
      = (QVizier <$> names) ++ sky ++ ned ∧
    names `prefix_of` f_vizier a ∧
    (sky = [] ∨ (sky = [QSkybot] ∧ f_skybot a = true)) ∧
    (ned = [] ∨ (ned = [QNed] ∧ f_ned a = true)).
Proof.
  change (wp (filter_transient_candidates a obj) h (λ _ _ es, query_shape a (queries es))).
  unfold filter_transient_candidates, filter_mask. apply wp_bind.
  wp_use default_radius_spec. intros [sr|e] ? ? (-> & -> & _); cbn beta iota zeta;
    [|apply query_shape_nil].
  wp_use with_id_cols. intros [work|e] h1 ? (-> & _ & _); cbn beta iota;
    [|apply query_shape_nil].
  wp_use filter_stages_queries. intros [m|e] h2 es2 Hshape; cbn beta iota;
    [|exact Hshape].
  wp_go; rewrite ?queries_app, ?queries_log; simpl; rewrite ?app_nil_r; exact Hshape.
Qed.

Lemma stage_skybot_without_time a work col_id m h t :
  f_time a = None → h !! work = Some t → cols t !! "time" = None →
  wp (stage_skybot a work col_id m) h (λ _ _ es, queries es = []).
Proof.
  intros Htime Hw Hno. unfold stage_skybot. rewrite Htime.
  destruct (f_skybot a && any_mask m); [|by wp_run].
  repeat (lazymatch goal with
    | |- wp (mbind _ _) _ _ => apply wp_bind
    | |- wp (mret _) _ _ => apply wp_ret
    | |- wp (has_col _ _) _ _ => apply wp_has_col; [intros ? ? | intros ?]
    | |- wp (get_col _ _) _ _ => apply wp_get_col; [intros ? ? ? ? | intros ?]
    | |- wp (match ?x with _ => _ end) _ _ => destruct x eqn:?
    end; cbn beta iota; simplify_eq); try done.
Qed.

Lemma wp_both {A} (c : M A) h (Q1 Q2 : Res A → gmap loc table → list event → Prop) :
  wp c h Q1 → wp c h Q2 → wp c h (λ r h' es, Q1 r h' es ∧ Q2 r h' es).
Proof. by split. Qed.

Lemma filter_stages_without_time a work sr col_id h t :
  f_time a = None → h !! work = Some t → cols t !! "time" = None →
  wp (filter_stages a work sr col_id) h (λ _ _ es, QSkybot ∉ queries es).
Proof.
  intros Htime Hw Hno.
  assert (∀ ns, QSkybot ∉ (QVizier <$> ns : list query)) as Hviz.
  { intros ns (n & ? & _)%list_elem_of_fmap. done. }
  assert (∀ ns x, x ∈ (QVizier <$> ns : list query) ++ [QNed] → x ≠ QSkybot) as Hned.
  { intros ns x [Hx| ->%list_elem_of_singleton]%elem_of_app; [|done].
    intros ->. by apply (Hviz ns). }
  unfold filter_stages. wp_step. wp_step; [|apply not_elem_of_nil].
  wp_step. wp_step. wp_step. wp_step. wp_step.
  eapply wp_mono with (Q := λ _ h' es, h' = h ∧ queries es = []).
  { unfold stage_flagged. wp_run; done. }
  intros [m1|e] ? es1 [-> H1]; cbn beta iota;
    [|rewrite !queries_app, queries_log, H1; apply not_elem_of_nil].
  wp_step.
  eapply wp_mono with (Q := λ _ h' es, h' = h ∧ queries es = []).
  { unfold stage_local. wp_run; rewrite ?queries_app, ?queries_log; done. }
  intros [m2|e] ? es2 [-> H2]; cbn beta iota;
    [|rewrite !queries_app, queries_log, H1, H2; apply not_elem_of_nil].
  wp_step.
  eapply wp_mono;
    [apply (wp_both _ _ _ _ (reads_only_stage_vizier a work sr col_id (f_vizier a) m2 h)
                            (stage_vizier_queries a work sr col_id (f_vizier a) m2 h))|].
  intros [m3|e] ? es3 [-> (ns & H3 & _)]; cbn beta iota;
    [|rewrite !queries_app, queries_log, H1, H2, H3; simpl; rewrite ?app_nil_r; apply Hviz].
  wp_use (stage_skybot_without_time a work col_id m3 h t Htime Hw Hno).
  intros [m4|e] h4 es4 H4; cbn beta iota;
    [|rewrite !queries_app, queries_log, H1, H2, H3, H4; simpl; rewrite ?app_nil_r; apply Hviz].
  eapply wp_mono; [apply stage_ned_queries|]. intros r h5 es5 Hn.
  rewrite !queries_app, queries_log, H1, H2, H3, H4. simpl. rewrite ?app_nil_r.
  destruct Hn as [->|[-> _]]; [rewrite ?app_nil_r; apply Hviz|].
  intros Hin. by apply (Hned ns _ Hin).
Qed.

(** X11.  With no [time] argument and no [time] column in [obj], SkyBoT is
    never asked, whatever [skybot] is ([col_id] not being ['time'], the
    column the function would then add itself). *)
Theorem filter_skybot_needs_time a obj h t :
  f_time a = None → h !! obj = Some t → cols t !! "time" = None →
  default "stdpipe_id" (f_col_id a) ≠ "time" →
  QSkybot ∉ queries (evs (filter_transient_candidates a obj h)).
Proof.
  intros Htime Ht Hno Hid.
  change (wp (filter_transient_candidates a obj) h (λ _ _ es, QSkybot ∉ queries es)).
  unfold filter_transient_candidates, filter_mask. apply wp_bind.
  wp_use default_radius_spec. intros [sr|e] ? ? (-> & -> & _); cbn beta iota zeta;
    [|apply not_elem_of_nil].
  wp_use with_id_cols. intros [work|e] h1 ? (-> & _ & Hw); cbn beta iota;
    [|apply not_elem_of_nil].
  destruct (Hw work eq_refl) as (t0 & t' & Ht0 & Ht' & _ & _ & Hother). simplify_eq.
  assert (cols t' !! "time" = None) as Hno' by (rewrite Hother; [done|by apply not_eq_sym]).
  wp_use (filter_stages_without_time a work sr (default "stdpipe_id" (f_col_id a)) h1 t'
            Htime Ht' Hno').
  intros [m|e] h2 es2 Hq; cbn beta iota; [|exact Hq].
  wp_go; rewrite ?queries_app, ?queries_log; simpl; rewrite ?app_nil_r; exact Hq.
Qed.

Lemma any_mask_replicate n : (0 < n)%nat → any_mask (replicate n true) = true.
Proof. destruct n; [lia|done]. Qed.

Lemma stage_vizier_unknown a work sr col_id name rest m h :
  any_mask m = true → catalogs_get name = None →
  ∀ x, res (stage_vizier a work sr col_id (name :: rest) m h) ≠ Ok x.
Proof.
  intros Hany Hname.
  change (wp (stage_vizier a work sr col_id (name :: rest) m) h (λ r _ _, ∀ x, r ≠ Ok x)).
  simpl. rewrite Hany, Hname. wp_go; done.
Qed.

(** X12.  A Vizier catalogue name that [catalogs.catalogs] does not know
    makes the call fail even with [verbose] unset: with the flag and
    local-catalogue stages off and at least one detection, the first name
    of [vizier] being unknown, [filter_transient_candidates] returns
    nothing (the name is looked up for the message before [log] is
    entered). *)
Theorem filter_unknown_catalogue_raises a obj h t name rest :
  f_flagged a = false → f_cat a = None → f_vizier a = name :: rest →
  catalogs_get name = None → h !! obj = Some t → (0 < nrows t)%nat →
  ∀ r, res (filter_transient_candidates a obj h) ≠ Ok r.
Proof.
  intros Hf Hcat Hviz Hname Ht Hrows r Hres.
  destruct (filter_result_cases a obj h r Hres) as (m & t0 & Hm & _ & _ & _).
  destruct (filter_mask_inv a obj h m Hm)
    as (sr & work & h1 & t1 & t' & _ & Ht1 & Ht' & Hn & _ & _ & _ & Hst & _).
  simplify_eq. revert Hst. unfold filter_stages. intros Hst.
  apply bind_ok_inv in Hst as (n & Hlen & Hst).
  assert (hp (len work h1) = h1 ∧ n = nrows t') as [Hh ->].
  { revert Hlen. unfold len, mbind, M_bind, bind, read. rewrite Ht'. simpl. by intros [= <-]. }
  rewrite Hh in Hst.
  apply bind_ok_inv in Hst as ([] & _ & Hst).
  assert (∀ v m0, hp (log v m0 h1) = h1) as Hlog by by intros [] ?.
  rewrite Hlog in Hst.
  apply bind_ok_inv in Hst as ([] & _ & Hst). cbn [hp emit] in Hst.
  unfold stage_flagged, stage_local in Hst. rewrite Hf, Hcat, Hviz in Hst.
  apply bind_ok_inv in Hst as (m1 & [= <-] & Hst). cbn [hp mret M_ret ret] in Hst.
  apply bind_ok_inv in Hst as (m2 & [= <-] & Hst). cbn [hp mret M_ret ret] in Hst.
  apply bind_ok_inv in Hst as (m3 & Hv & _).
  eapply stage_vizier_unknown; [|done|exact Hv].
  apply any_mask_replicate. by rewrite Hn.
Qed.

Lemma idle_leaf_log (v : bool) m0 :
  Forall (λ e : event, is_lookup e = false) (if v then [EvPrint m0] else []).
Proof. destruct v; repeat constructor. Qed.

Lemma stage_flagged_nil a work h : wp (stage_flagged a work []) h (λ r _ es, idle r es).
Proof.
  unfold stage_flagged, and_mask. wp_run; (split; [repeat constructor|]);
    intros m ?; simplify_eq; try done.
  by case_decide; simplify_eq.
Qed.

Lemma stage_local_nil a work sr h : wp (stage_local a work sr []) h (λ r _ es, idle r es).
Proof.
  unfold stage_local. destruct (f_cat a); simpl; wp_run;
    (split; [repeat constructor|]); intros m ?; by simplify_eq.
Qed.

Lemma stage_vizier_nil a work sr col_id names h :
  wp (stage_vizier a work sr col_id names []) h (λ r _ es, idle r es).
Proof.
  destruct names; simpl; wp_run; (split; [repeat constructor|]); intros m ?; by simplify_eq.
Qed.

Lemma stage_skybot_nil a work col_id h :
  wp (stage_skybot a work col_id []) h (λ r _ es, idle r es).
Proof.
  unfold stage_skybot. rewrite andb_false_r.
  wp_run; (split; [repeat constructor|]); intros m ?; by simplify_eq.
Qed.

Lemma stage_ned_nil a work sr col_id h :
  wp (stage_ned a work sr col_id []) h (λ r _ es, idle r es).
Proof.
  unfold stage_ned. rewrite andb_false_r.
  wp_run; (split; [repeat constructor|]); intros m ?; by simplify_eq.
Qed.

Lemma filter_stages_nil a work sr col_id h t :
  h !! work = Some t → nrows t = 0%nat →
  wp (filter_stages a work sr col_id) h (λ _ _ es, Forall (λ e, is_lookup e = false) es).
Proof.
  intros Hw Hn. unfold filter_stages.
  apply wp_bind. unfold len. apply wp_bind, wp_read; [|congruence].
  intros t' Ht'. simplify_eq. cbn beta iota. apply wp_ret. cbn beta iota. rewrite Hn. simpl.
  wp_step. wp_step. wp_step. wp_step.
  wp_use stage_flagged_nil. intros [m1|e] h1 es1 [H1 Hm1]; cbn beta iota.
  2:{ rewrite ?Forall_app; repeat split; auto using idle_leaf_log; repeat constructor. }
  rewrite (Hm1 m1 eq_refl).
  wp_use stage_local_nil. intros [m2|e] h2 es2 [H2 Hm2]; cbn beta iota.
  2:{ rewrite ?Forall_app; repeat split; auto using idle_leaf_log; repeat constructor. }
  rewrite (Hm2 m2 eq_refl).
  wp_use stage_vizier_nil. intros [m3|e] h3 es3 [H3 Hm3]; cbn beta iota.
  2:{ rewrite ?Forall_app; repeat split; auto using idle_leaf_log; repeat constructor. }
  rewrite (Hm3 m3 eq_refl).
  wp_use stage_skybot_nil. intros [m4|e] h4 es4 [H4 Hm4]; cbn beta iota.
  2:{ rewrite ?Forall_app; repeat split; auto using idle_leaf_log; repeat constructor. }
  rewrite (Hm4 m4 eq_refl).
  eapply wp_mono; [apply stage_ned_nil|]. intros r h5 es5 [H5 _].
  rewrite ?Forall_app; repeat split; auto using idle_leaf_log; repeat constructor.
Qed.

(** X13.  For a table without rows, [filter_transient_candidates] looks
    nothing up, neither in the local catalogue nor at a service; a mask
    returned is empty and a table of candidates returned has no rows. *)
Theorem filter_empty_table a obj h t :
  h !! obj = Some t → nrows t = 0%nat →
  let o := filter_transient_candidates a obj h in
  Forall (λ e, is_lookup e = false) (evs o) ∧
  (∀ m, res o = Ok (CandMask m) → m = []) ∧
  (∀ l, res o = Ok (Candidates l) → ∃ tr, hp o !! l = Some tr ∧ nrows tr = 0%nat).
Proof.
  intros Ht Hn o. subst o. split; [|split].
  - change (wp (filter_transient_candidates a obj) h
              (λ _ _ es, Forall (λ e, is_lookup e = false) es)).
    unfold filter_transient_candidates, filter_mask. apply wp_bind.
    wp_use default_radius_spec. intros [sr|e] ? ? (-> & -> & _); cbn beta iota zeta;
      [|constructor].
    wp_use with_id_cols. intros [work|e] h1 ? (-> & _ & Hw); cbn beta iota; [|constructor].
    destruct (Hw work eq_refl) as (t0 & t' & Ht0 & Ht' & Hrows & _). simplify_eq.
    wp_use (filter_stages_nil a work sr (default "stdpipe_id" (f_col_id a)) h1 t' Ht').
    { congruence. }
    intros [m|e] h2 es2 Hq; cbn beta iota; [|exact Hq].
    wp_go; rewrite ?Forall_app; repeat split; auto using idle_leaf_log; repeat constructor.
  - intros m Hres.
    destruct (filter_result_cases a obj h _ Hres) as (m' & t' & _ & ? & Hlen & [Heq|(l & Heq & _)]);
      simplify_eq. apply nil_length_inv. congruence.
  - intros l Hres.
    destruct (filter_result_cases a obj h _ Hres) as (m' & t' & _ & ? & Hlen & [Heq|(l' & Heq & Hl)]);
      simplify_eq. eexists. split; [done|]. simpl.
    assert (m' = []) as -> by (apply nil_length_inv; congruence). done.
Qed.

End FilterMore.

(** ** What the calibration writes and returns *)

Section CalibrateMore.
Context `{C : Collaborators}.
Implicit Types (h : gmap loc table) (es : list event) (l : loc).

Lemma calib_match_args_fields a obj cat sr h :
  wp (calib_match_args a obj cat sr) h (λ r h' es,
    h' = h ∧ es = [] ∧ ∀ ma, r = Ok ma →
      m_sr ma = sr ∧ m_spatial_order ma = Some (c_order a) ∧
      m_threshold ma = Some (c_threshold a) ∧ m_cat_magerr ma = None ∧
      ∃ t x y, h !! obj = Some t ∧ cols t !! "x" = Some x ∧ cols t !! "y" = Some y ∧
               m_obj_xy ma = Some (x, y)).
Proof.
  unfold calib_match_args, get_col_opt.
  wp_run; (split; [done|split; [done|]]); intros ma ?; simplify_eq.
  simpl. repeat split; eauto 10.
Qed.

Lemma matches_log (v : bool) m0 : matches (if v then [EvPrint m0] else []) = [].
Proof. by destruct v. Qed.

(** The part of [calibrate_photometry] before the matcher is called. *)
Lemma calib_color_log a h :
  wp (if truthy (c_cat_col_mag1 a) && truthy (c_cat_col_mag2 a)
      then log (c_verbose a) (MsgCalibColor (default "" (c_cat_col_mag1 a))
                                            (default "" (c_cat_col_mag2 a)))
      else mret tt) h (λ r h' es, r = Ok tt ∧ h' = h ∧ matches es = []).
Proof.
  destruct (truthy _ && truthy _); [apply wp_log|apply wp_ret]; by rewrite ?matches_log.
Qed.

Lemma calib_color_term_log a (mr : match_result) h :
  wp (match color_term mr with
      | Some c => if decide (c = 0%Qc) then mret tt else log (c_verbose a) (MsgColorTerm c)
      | None => mret tt
      end) h (λ r h' es, r = Ok tt ∧ h' = h ∧ matches es = []).
Proof.
  destruct (color_term mr) as [c|]; [case_decide|];
    first [apply wp_log|apply wp_ret]; by rewrite ?matches_log.
Qed.

Lemma calibrate_heap_cases a obj cat h :
  wp (calibrate_photometry a obj cat) h (λ r h' es,
    (h' = h ∧ (c_update a = true → ∀ mr, r ≠ Ok (Some mr))) ∨
    (c_update a = true ∧ ∃ mr, r = Ok (Some mr) ∧ calibrated obj mr h h')).
Proof.
  unfold calibrate_photometry.
  wp_use default_radius_spec. intros [sr|e] ? ? (-> & -> & _); cbn beta iota; [|by left].
  wp_step. wp_step; [|by left]. wp_step. wp_step; [|by left].
  wp_step. wp_step. wp_step. wp_step. wp_step.
  wp_use calib_color_log. intros ? ? es0 (-> & -> & _). cbn beta iota.
  wp_use calib_match_args_fields. intros [ma|e] ? ? (-> & -> & _); cbn beta iota; [|by left].
  wp_step. wp_step.
  destruct (photometry_match ma) as [mr|] eqn:Hm; cbn beta iota.
  2:{ wp_step. wp_step. wp_step. left. split; [done|]. by intros _ mr. }
  wp_step. wp_step. wp_step.
  wp_use calib_color_term_log. intros ? ? es1 (-> & -> & _). cbn beta iota.
  wp_step.
  destruct (c_update a) eqn:Hu.
  2:{ wp_step. wp_step. by left. }
  wp_step. wp_step; [|by left].
  wp_step. wp_step; [|by left].
  wp_step. wp_step; [|by left].
  wp_step. wp_step.
  destruct (col_op Qcplus _ _) as [calib|e] eqn:Hc; cbn beta iota; [|by left].
  wp_step; [|by left].
  wp_step. right. split; [done|]. exists mr. split; [done|].
  unfold col_op in Hc. case_decide; simplify_eq.
  unfold calibrated. eauto 10.
Qed.

(** X14.  [calibrate_photometry] either leaves every table as it was, or
    [update] is set, the matcher's answer [mr] is returned and the only
    change is the column [mag_calib] of [obj], set to
    [mag + mr.zero_fn(x, y)]. *)
Theorem calibrate_touches_only_mag_calib a obj cat h :
  let o := calibrate_photometry a obj cat h in
  hp o = h ∨
  (c_update a = true ∧ ∃ mr, res o = Ok (Some mr) ∧ calibrated obj mr h (hp o)).
Proof.
  intros o. subst o. destruct (calibrate_heap_cases a obj cat h) as [[? _]|?]; auto.
Qed.

(** X15.  With [update] set, whenever [calibrate_photometry] returns a
    match [mr], the table [obj] has got the column [mag_calib] equal to
    [obj['mag'] + mr['zero_fn'](obj['x'], obj['y'])], and nothing else has
    changed. *)
Theorem calibrate_success_sets_mag_calib a obj cat h mr :
  c_update a = true →
  res (calibrate_photometry a obj cat h) = Ok (Some mr) →
  calibrated obj mr h (hp (calibrate_photometry a obj cat h)).
Proof.
  intros Hu Hres. destruct (calibrate_heap_cases a obj cat h) as [[_ Hno]|(_ & mr' & Hr & Hc)].
  - by destruct (Hno Hu mr).
  - rewrite Hres in Hr. by simplify_eq.
Qed.

Lemma calibrate_match_cases a obj cat h :
  wp (calibrate_photometry a obj cat) h (λ r h' es,
    (length (matches es) ≤ 1)%nat ∧
    ∀ v, r = Ok v →
      ∃ ma, matches es = [ma] ∧ v = photometry_match ma ∧ calib_keywords a obj h ma).
Proof.
  unfold calibrate_photometry.
  wp_use default_radius_spec. intros [sr|e] ? ? (-> & -> & Hsr); cbn beta iota;
    [|split; [simpl; lia|done]].
  wp_step. wp_step; [|split; [simpl; lia|done]].
  wp_step. wp_step; [|split; [simpl; lia|done]].
  wp_step. wp_step. wp_step. wp_step. wp_step.
  wp_use calib_color_log. intros ? ? es0 (-> & -> & Hes0). cbn beta iota.
  wp_use calib_match_args_fields. intros [ma|e] ? ? (-> & -> & Hma); cbn beta iota.
  2:{ rewrite !matches_app, !matches_log, Hes0. split; [simpl; lia|done]. }
  destruct (Hma ma eq_refl) as (Hr & Ho & Ht & He & Hxy).
  assert (calib_keywords a obj h ma) as Hkw.
  { unfold calib_keywords. repeat split; try done.
    intros sr' Hsr'. rewrite Hsr' in Hsr. rewrite Hr. by apply Hsr. }
  wp_step. wp_step.
  destruct (photometry_match ma) as [mr|] eqn:Hm; cbn beta iota.
  2:{ wp_step. wp_step. wp_step.
      rewrite !matches_app, !matches_log, Hes0. simpl. split; [lia|].
      intros v ?; simplify_eq. exists ma. by rewrite Hm. }
  wp_step. wp_step. wp_step.
  wp_use calib_color_term_log. intros ? ? es1 (-> & -> & Hes1). cbn beta iota.
  wp_step.
  eapply wp_mono with (Q := λ r h' es, es = []).
  { destruct (c_update a); wp_run; done. }
  intros [[]|e] h' ? ->; cbn beta iota.
  - wp_step. rewrite !matches_app, !matches_log, Hes0, Hes1. simpl. split; [lia|].
    intros v ?; simplify_eq. exists ma. by rewrite Hm.
  - rewrite !matches_app, !matches_log, Hes0, Hes1. simpl. split; [lia|done].
Qed.

(** X16.  [calibrate_photometry] calls [photometry.match] at most once,
    and whatever it returns is the answer of that one call, which was made
    with [spatial_order = order], [threshold = threshold], no catalogue
    magnitude errors, the pixel positions of [obj], and the radius [sr]
    when one is given. *)
Theorem calibrate_returns_matcher_answer a obj cat h :
  let o := calibrate_photometry a obj cat h in
  (length (matches (evs o)) ≤ 1)%nat ∧
  ∀ v, res o = Ok v →
    ∃ ma, matches (evs o) = [ma] ∧ v = photometry_match ma ∧ calib_keywords a obj h ma.
Proof. intros o. subst o. apply calibrate_match_cases. Qed.

End CalibrateMore.

(** ** The default radius and the order of the rows *)

Section RadiusMore.
Context `{C : Collaborators}.
Implicit Types (h : gmap loc table) (es : list event) (l : loc).

Lemma median_Permutation (c c' : column) : c ≡ₚ c' → median c = median c'.
Proof.
  intros Hp. unfold median.
  assert (merge_sort Qcle c = merge_sort Qcle c') as ->; [|done].
  apply (Sorted_unique Qcle).
  - apply (Sorted_merge_sort Qcle).
  - apply (Sorted_merge_sort Qcle).
  - by rewrite !merge_sort_Permutation.
Qed.

Lemma get_col_ok l k h t c :
  h !! l = Some t → cols t !! k = Some c → get_col l k h = Outcome (Ok c) h [].
Proof.
  intros Ht Hc. unfold get_col, mbind, M_bind, bind, read. rewrite Ht. cbn beta iota zeta.
  unfold res at 1. cbn beta iota. unfold column in *. rewrite Hc. done.
Qed.

(** X17.  The default matching radius does not depend on the order of the
    rows: two tables whose [fwhm] columns are permutations of each other
    get the same radius (or the same given [sr]). *)
Theorem default_radius_row_order sr p obj h h' t t' f f' :
  h !! obj = Some t → h' !! obj = Some t' →
  cols t !! "fwhm" = Some f → cols t' !! "fwhm" = Some f' → f ≡ₚ f' →
  res (default_radius sr p obj h) = res (default_radius sr p obj h').
Proof.
  intros Ht Ht' Hf Hf' Hp. unfold default_radius.
  destruct sr as [r|]; [done|]. destruct p as [p|]; [|done].
  unfold mbind, M_bind, bind. rewrite (get_col_ok _ _ _ _ _ Ht Hf), (get_col_ok _ _ _ _ _ Ht' Hf').
  simpl. f_equal. f_equal. apply median_Permutation. by apply fmap_Permutation.
Qed.

End RadiusMore.

(** ** Runs on concrete tables *)

Section NullMatch.
Context `{C : Collaborators}.

(** With photometric matching a pass of the loop cannot end normally when
    the matcher has nothing to return: the message for [log] is built from
    [m['idx']] before [return None] is reached. *)
Lemma refine_iter_null_match a obj cat i h :
  r_use_photometry a = true → (∀ ma, photometry_match ma = None) →
  ∀ x, res (refine_iter a obj cat i h) ≠ Ok x.
Proof.
  intros Hphot Hnull.
  change (wp (refine_iter a obj cat i) h (λ r _ _, ∀ x, r ≠ Ok x)).
  unfold refine_iter. rewrite Hphot. apply wp_bind, wp_bind.
  eapply wp_mono with (Q := λ _ _ _, True); [done|].
  intros [margs|e] h1 es1 _; cbn beta iota zeta; [|done].
  rewrite Hnull. wp_run; done.
Qed.

Lemma refine_never_returns_on_null_match a obj cat h :
  r_method a ≠ "scamp" → r_use_photometry a = true → (0 < r_n_iter a)%Z →
  (∀ ma, photometry_match ma = None) →
  ∀ v, res (refine_astrometry a obj cat h) ≠ Ok v.
Proof.
  intros Hmethod Hphot Hn Hnull v.
  destruct (refine_astrometry_run a obj cat h) as (-> & _ & _).
  assert (∀ x, res (refine_run a obj cat h) ≠ Ok x) as Hrun;
    [|by destruct (res (refine_run a obj cat h)) as [x|]; [destruct (Hrun x)|]].
  change (wp (refine_run a obj cat) h (λ r _ _, ∀ x, r ≠ Ok x)).
  unfold refine_run, refine_body. apply wp_bind.
  eapply wp_mono with (Q := λ _ _ _, True); [done|].
  intros [[]|e] h1 es1 _; [|done]. case_decide; [done|].
  destruct (Z.to_nat (r_n_iter a)) as [|n] eqn:Hnat; [lia|]. simpl.
  apply wp_bind. unfold wp.
  pose proof (refine_iter_null_match a obj cat 0 h1 Hphot Hnull) as Hiter.
  destruct (res (refine_iter a obj cat 0 h1)) as [x|]; [by destruct (Hiter x)|done].
Qed.

(** Without an initial solution, without [update] and with a solver that
    respects [update], the caller's tables are left as they were. *)
Lemma refine_frame_without_guess a obj cat h :
  r_wcs a = None → r_update a = false →
  (r_method a = "scamp" → scamp_respects_update) →
  hp (refine_astrometry a obj cat h) = h.
Proof.
  intros Hwcs Hu Hscamp.
  destruct (refine_astrometry_run a obj cat h) as (_ & -> & _).
  change (wp (refine_run a obj cat) h (λ _ h' _, h' = h)).
  unfold refine_run, refine_prologue. rewrite Hwcs.
  wp_step. wp_step. wp_step. wp_step.
  by apply reads_only_refine_body.
Qed.

End NullMatch.

(** C1.  The photometric matcher returns [None] for two detections and
    one catalogue star; [refine_astrometry], called with its defaults, does
    not return [None]: it raises [TypeError]. *)
Lemma refine_null_match_raises :
  res (@refine_astrometry silent refine_defaults 1%positive 2%positive heap0)
    = Raise TypeError.
Proof. vm_compute. reflexivity. Qed.

(** Two good pairs where five are required: the call returns [None]. *)
Lemma refine_too_few_returns_none :
  res (@refine_astrometry matching refine_defaults 1%positive 2%positive heap0) = Ok None.
Proof. vm_compute. reflexivity. Qed.

(** C2.  With [update = False], [method = 'astropy'] and an initial
    solution, [refine_astrometry] replaces the [ra] column of the caller's
    table: it held 10 and 20 before the call, and holds 2 and 3, the
    projected pixel positions, after it. *)
Lemma refine_overwrites_without_update :
  let o := @refine_astrometry silent refine_with_guess 1%positive 2%positive heap0 in
  r_update refine_with_guess = false ∧
  r_method refine_with_guess = "astropy" ∧
  (heap0 !! 1%positive) ≫= (λ t, cols t !! "ra") = Some [qz 10; qz 20] ∧
  (hp o !! 1%positive) ≫= (λ t, cols t !! "ra") = Some [qz 2; qz 3] ∧
  hp o !! 1%positive ≠ heap0 !! 1%positive.
Proof.
  assert ((hp (@refine_astrometry silent refine_with_guess 1%positive 2%positive heap0)
             !! 1%positive) ≫= (λ t, cols t !! "ra") = Some [qz 2; qz 3]) as Hafter.
  { apply (bool_decide_unpack _). vm_compute. exact I. }
  repeat split; done.
Qed.

(** C10.  With [verbose = False] and the other defaults,
    [filter_transient_candidates] prints the number of unflagged
    detections. *)
Lemma filter_prints_without_verbose :
  f_verbose filter_defaults = false ∧
  printed (evs (@filter_transient_candidates silent filter_defaults 1%positive heap0))
    = [MsgUnflagged 1].
Proof. split; [reflexivity|]. vm_compute. reflexivity. Qed.

(** The SCAMP path on the two detections. *)
Lemma refine_scamp_bypasses_loop_witness :
  let o := @refine_astrometry silent refine_by_scamp 1%positive 2%positive heap0 in
  fits (evs o) = [] ∧ matches (evs o) = [] ∧
  ∀ r, res o = Ok r →
    scamp_calls (evs o) = [r] ∧
    ∃ tobj tcat,
      hp (refine_prologue refine_by_scamp 1%positive heap0) !! 1%positive = Some tobj ∧
      hp (refine_prologue refine_by_scamp 1%positive heap0) !! 2%positive = Some tcat ∧
      r = (refine_wcs_scamp tobj tcat (scamp_args_of refine_by_scamp)).1.
Proof.
  apply (@refine_scamp_bypasses_loop silent refine_by_scamp 1%positive 2%positive heap0).
  reflexivity.
Defined.

(** Two passes with two good pairs each. *)
Lemma refine_fixed_iterations_witness :
  let o := @refine_astrometry matching refine_two_passes 1%positive 2%positive heap0 in
  let w : option (@WCS matching) := Some (Qc_of_nat 2, 0%Qc) in
  res o = Ok w ∧
  length (fits (evs o)) = 2%nat ∧
  w = default None (last (fits (evs o))) ∧
  length (matches (evs o)) = 2%nat ∧
  scamp_calls (evs o) = [] ∧
  ((2 ≤ 0)%Z → w = None ∧ fits (evs o) = [] ∧ matches (evs o) = []).
Proof.
  apply (@refine_fixed_iterations matching refine_two_passes 1%positive 2%positive heap0
           (Some (Qc_of_nat 2, 0%Qc))).
  - discriminate.
  - vm_compute. reflexivity.
Defined.

(** C6 as worded fails.  Positional matching, three passes asked for and
    [update] set, with a fit that finds no solution: the matcher is never
    called, so the too-few-matches exit is not taken; yet the loop stops
    in its first pass, at [wcs.all_pix2world] of line 63, after one fit of
    three, and no solution is returned. *)
Lemma refine_stops_before_n_iter :
  let a := refine_three_positional in
  let o := @refine_astrometry failing_fit a 1%positive 2%positive heap0 in
  r_method a ≠ "scamp" ∧ r_n_iter a = 3%Z ∧
  matches (evs o) = [] ∧
  res (@refine_run failing_fit a 1%positive 2%positive heap0) ≠ Ok TooFew ∧
  fits (evs o) = [None] ∧
  length (fits (evs o)) ≠ Z.to_nat (r_n_iter a) ∧
  res o = Raise AttributeError.
Proof.
  assert (res (@refine_run failing_fit refine_three_positional 1%positive 2%positive heap0)
            = Raise AttributeError) as Hrun by (vm_compute; reflexivity).
  assert (fits (evs (@refine_astrometry failing_fit refine_three_positional
                       1%positive 2%positive heap0)) = [None]) as Hfits
    by (vm_compute; reflexivity).
  assert (res (@refine_astrometry failing_fit refine_three_positional
                 1%positive 2%positive heap0) = Raise AttributeError) as Hres
    by (vm_compute; reflexivity).
  cbv zeta. rewrite Hfits, Hrun, Hres. repeat split; done.
Qed.

(** One pass from an initial solution, run twice. *)
Lemma refine_twice_identical_witness :
  let o1 := @refine_astrometry matching refine_once 1%positive 2%positive heap0 in
  let o2 := @refine_astrometry matching refine_once 1%positive 2%positive (hp o1) in
  res o2 = res o1 ∧ hp o2 = hp o1 ∧ evs o2 = evs o1.
Proof.
  apply (@refine_twice_identical matching refine_once 1%positive 2%positive heap0).
  - reflexivity.
  - reflexivity.
  - intros _ tobj tcat sa _. reflexivity.
Defined.

(** The scenario of two detections and one star: removing the flagged
    detection drops the second, the match with the local catalogue drops
    the first, and no catalogue service is queried for the empty rest. *)
Lemma filter_scenario :
  let o := @filter_transient_candidates matching filter_with_catalogue 1%positive heap0 in
  res o = Ok (CandMask [false; false]) ∧
  masks (evs o) = [[true; true]; [true; false]; [true; false]; [false; false]] ∧
  filter (λ e, is_query e = true) (evs o) = [].
Proof. vm_compute. repeat split; reflexivity. Qed.

(** ** The further properties on the concrete tables *)

(** Two passes over the two detections leave the catalogue alone. *)
Lemma refine_only_writes_sky_witness :
  only_sky_written 1%positive heap0
    (hp (@refine_astrometry matching refine_two_passes 1%positive 2%positive heap0)).
Proof.
  apply (@refine_only_writes_sky matching refine_two_passes 1%positive 2%positive heap0).
  discriminate.
Defined.

(** Two passes with [update]: the table is projected through the last fit. *)
Lemma refine_update_projects_result_witness :
  projected 1%positive ((Qc_of_nat 2, 0%Qc) : @WCS matching)
    (hp (@refine_astrometry matching refine_two_passes 1%positive 2%positive heap0)).
Proof.
  apply (@refine_update_projects_result matching refine_two_passes 1%positive 2%positive heap0).
  - discriminate.
  - reflexivity.
  - reflexivity.
  - vm_compute. reflexivity.
Defined.

(** Two good pairs where the defaults ask for five. *)
Lemma refine_too_few_aborts_witness :
  let o := @refine_astrometry matching refine_defaults 1%positive 2%positive heap0 in
  fits (evs o) = [] ∧
  ∀ v, res o = Ok v → v = None ∧ length (matches (evs o)) = 1%nat.
Proof.
  apply (@refine_too_few_aborts matching refine_defaults 1%positive 2%positive heap0).
  - discriminate.
  - reflexivity.
  - reflexivity.
  - intros ma. exists good_match. split; [reflexivity|]. vm_compute. reflexivity.
Defined.

(** A positional fit that finds nothing. *)
Lemma refine_failed_fit_raises_witness :
  let o := @refine_astrometry failing_fit refine_positional 1%positive 2%positive heap0 in
  res o = Raise AttributeError ∧ hp o = heap0 ∧ fits (evs o) = [None].
Proof.
  apply (@refine_failed_fit_raises failing_fit refine_positional 1%positive 2%positive heap0
           obj2 cat1).
  - discriminate.
  - reflexivity.
  - reflexivity.
  - reflexivity.
  - reflexivity.
  - reflexivity.
  - reflexivity.
  - reflexivity.
Defined.

(** The two passes, printed or not. *)
Lemma refine_verbose_only_prints_witness :
  same_run
    (@refine_astrometry matching (refine_set_verbose refine_two_passes true)
       1%positive 2%positive heap0)
    (@refine_astrometry matching refine_two_passes 1%positive 2%positive heap0).
Proof.
  apply (@refine_verbose_only_prints matching refine_two_passes true 1%positive 2%positive
           heap0).
  discriminate.
Defined.

(** The flagged second detection is dropped. *)
Lemma filter_drops_flagged_witness :
  let o := @filter_transient_candidates silent filter_defaults 1%positive heap0 in
  (∀ m, res o = Ok (CandMask m) →
     ∀ i, m !! i = Some true → [qz 0; qz 1] !! i = Some 0%Qc) ∧
  (∀ l, res o = Ok (Candidates l) →
     ∃ tr, hp o !! l = Some tr ∧
           ∀ c, cols tr !! "flags" = Some c → Forall (λ v, v = 0%Qc) c).
Proof.
  apply (@filter_drops_flagged silent filter_defaults 1%positive heap0 obj2 [qz 0; qz 1]).
  - reflexivity.
  - reflexivity.
  - reflexivity.
Defined.

(** The first detection is the star of the local catalogue. *)
Lemma filter_drops_local_matches_witness :
  [false; false] !! 0%nat ≠ Some true.
Proof.
  apply (@filter_drops_local_matches matching filter_with_catalogue 1%positive heap0
           2%positive (Fin arcsec) obj2 cat1
           [qz 10; qz 20] [qz 30; qz 40] [qz 10] [qz 30] [false; false]).
  - reflexivity.
  - reflexivity.
  - reflexivity.
  - reflexivity.
  - reflexivity.
  - reflexivity.
  - reflexivity.
  - reflexivity.
  - vm_compute. reflexivity.
  - simpl. constructor.
Defined.

(** The two detections carry no time. *)
Lemma filter_skybot_needs_time_witness :
  QSkybot ∉ queries (evs (@filter_transient_candidates silent filter_defaults 1%positive heap0)).
Proof.
  apply (@filter_skybot_needs_time silent filter_defaults 1%positive heap0 obj2).
  - reflexivity.
  - reflexivity.
  - reflexivity.
  - discriminate.
Defined.

(** A catalogue that is not listed. *)
Lemma filter_unknown_catalogue_raises_witness :
  res (@filter_transient_candidates unlisted filter_one_catalogue 1%positive heap0)
    ≠ Ok (CandMask [true; true]).
Proof.
  apply (@filter_unknown_catalogue_raises unlisted filter_one_catalogue 1%positive heap0
           obj2 "ps1" []).
  - reflexivity.
  - reflexivity.
  - reflexivity.
  - reflexivity.
  - reflexivity.
  - simpl. lia.
Defined.

(** No detection at all. *)
Lemma filter_empty_table_witness :
  let o := @filter_transient_candidates silent filter_defaults 1%positive heap_empty in
  Forall (λ e, is_lookup e = false) (evs o) ∧
  (∀ m, res o = Ok (CandMask m) → m = []) ∧
  (∀ l, res o = Ok (Candidates l) → ∃ tr, hp o !! l = Some tr ∧ nrows tr = 0%nat).
Proof.
  apply (@filter_empty_table silent filter_defaults 1%positive heap_empty obj0).
  - reflexivity.
  - reflexivity.
Defined.

(** The zero point of [good_match] is the pixel column: 5 + 1 and 6 + 2. *)
Lemma calibrate_success_sets_mag_calib_witness :
  calibrated 1%positive good_match heap0
    (hp (@calibrate_photometry matching calib_with_colour 1%positive 2%positive heap0)).
Proof.
  apply (@calibrate_success_sets_mag_calib matching calib_with_colour 1%positive 2%positive
           heap0 good_match).
  - reflexivity.
  - vm_compute. reflexivity.
Defined.

(** The two detections in either order. *)
Lemma default_radius_row_order_witness :
  res (@default_radius silent None (Some (qz 1)) 1%positive heap0)
    = res (@default_radius silent None (Some (qz 1)) 1%positive heap0_swapped).
Proof.
  apply (@default_radius_row_order silent None (Some (qz 1)) 1%positive heap0 heap0_swapped
           obj2 obj2_swapped [qz 2; qz 4] [qz 4; qz 2]).
  - reflexivity.
  - reflexivity.
  - reflexivity.
  - reflexivity.
  - apply perm_swap.
Defined.
